(** * git-sha1: the incremental SHA-1 engine of [src/git-sha1.ts]

    A shallow embedding of [createJs] (the pure JavaScript digest engine) and
    of the one-shot wrapper [sha1], together with the properties of the
    engine that the specification states.

    Numbers.  JavaScript numbers are IEEE doubles.  Every number the engine
    handles is an integer: the chaining values and working variables stay
    below 2^34 in magnitude (section [Exactness]), and [totalLength] is a sum
    of multiples of 8.  Doubles represent integers exactly up to 2^53, so
    the arithmetic of the engine is modelled in [Z]; the conversions that the
    bitwise operators apply ([ToInt32], [ToUint32]) are written out.
    [totalLength] is exact in the source as long as fewer than 2^50 bytes are
    hashed, which is the range this development speaks about.

    Arrays.  [block] is a [Uint32Array] of 80 words: a [list Z] read with
    stdpp's lookup and written with stdpp's insert.  A typed array ignores a
    store outside its bounds (as [<[i:=v]>] does), reads [undefined] there
    (which [|=] coerces to 0), and reduces every stored value modulo 2^32. *)

From Stdlib Require Import ZArith Lia String Ascii Bool.
From stdpp Require Import base list.

Local Open Scope Z_scope.

(** ** JavaScript's 32-bit operators on integral numbers *)

Module JS.

Definition ToUint32 (x : Z) : Z := x mod 4294967296.

Definition ToInt32 (x : Z) : Z :=
  let u := x mod 4294967296 in
  if 2147483648 <=? u then u - 4294967296 else u.

(** [x & y], [x | y], [x ^ y]: both operands go through [ToInt32]; the
    result of a bitwise operation on two int32 values is an int32. *)
Definition and (x y : Z) : Z := Z.land (ToInt32 x) (ToInt32 y).
Definition or (x y : Z) : Z := Z.lor (ToInt32 x) (ToInt32 y).
Definition xor (x y : Z) : Z := Z.lxor (ToInt32 x) (ToInt32 y).

(** [x << n], [x >> n], [x >>> n]: the shift count is taken modulo 32. *)
Definition shl (x n : Z) : Z := ToInt32 (Z.shiftl (ToInt32 x) (n mod 32)).
Definition shr (x n : Z) : Z := Z.shiftr (ToInt32 x) (n mod 32).
Definition shru (x n : Z) : Z := Z.shiftr (ToUint32 x) (n mod 32).

(** [n.toString(16)] for the values [0..15], the only ones [toHex] passes
    (its argument is masked with [& 0xf]). *)
Definition toString16 (n : Z) : string :=
  match n with
  | 0 => "0" | 1 => "1" | 2 => "2" | 3 => "3"
  | 4 => "4" | 5 => "5" | 6 => "6" | 7 => "7"
  | 8 => "8" | 9 => "9" | 10 => "a" | 11 => "b"
  | 12 => "c" | 13 => "d" | 14 => "e" | 15 => "f"
  | _ => ""
  end%string.

End JS.

(** ** The typed array *)

(** [b[i]] read as a number. *)
Definition get (b : list Z) (i : nat) : Z := default 0 (b !! i).

(** [b[i] = v]. *)
Definition set (i : nat) (v : Z) (b : list Z) : list Z := <[i := JS.ToUint32 v]> b.

(** [new Uint32Array(80)]. *)
Definition newBlock : list Z := replicate 80 0.

(** ** The engine: the variables closed over by [createJs]

    [compressed] is a ghost field: it records, oldest first, the sixteen
    input words of every block handed to [processBlock].  No operation reads
    it. *)

Record engine : Type := Engine {
  h0 : Z; h1 : Z; h2 : Z; h3 : Z; h4 : Z;
  block : list Z;
  offset : nat;
  shift : Z;
  totalLength : Z;
  compressed : list (list Z)
}.

(** An input chunk: a "raw" string (its UTF-16 code units) or an array of
    numbers. *)
Inductive chunk : Type :=
| ChunkString (s : list Z)
| ChunkArray (a : list Z).

Definition chunkData (c : chunk) : list Z :=
  match c with ChunkString s => s | ChunkArray a => a end.

(** The five working variables [a, b, c, d, e] of the main loop. *)
Definition vars : Type := (Z * Z * Z * Z * Z)%type.

(** Body of the extension loop, [i] from 16 to 79. *)
Definition extend (b : list Z) (i : nat) : list Z :=
  let w := JS.xor (JS.xor (JS.xor (get b (i - 3)) (get b (i - 8)))
                          (get b (i - 14))) (get b (i - 16)) in
  set i (JS.or (JS.shl w 1) (JS.shru w 31)) b.

(** Body of the main loop, [i] from 0 to 79. *)
Definition round (blk : list Z) (v : vars) (i : nat) : vars :=
  let '(a, b, c, d, e) := v in
  let '(f, k) :=
    if (i <? 20)%nat then (JS.xor d (JS.and b (JS.xor c d)), 0x5A827999)
    else if (i <? 40)%nat then (JS.xor (JS.xor b c) d, 0x6ED9EBA1)
    else if (i <? 60)%nat then (JS.or (JS.and b c) (JS.and d (JS.or b c)), 0x8F1BBCDC)
    else (JS.xor (JS.xor b c) d, 0xCA62C1D6) in
  let temp := JS.or (JS.shl a 5) (JS.shru a 27) + f + e + k + JS.or (get blk i) 0 in
  (temp, a, JS.or (JS.shl b 30) (JS.shru b 2), c, d).

(** The three loops of [processBlock]. *)
Definition schedule (b : list Z) : list Z := fold_left extend (seq 16 64) b.

Definition rounds (blk : list Z) (v : vars) : vars := fold_left (round blk) (seq 0 80) v.

Definition clear16 (b : list Z) : list Z := fold_left (fun b i => set i 0 b) (seq 0 16) b.

Definition processBlock (st : engine) : engine :=
  let blk := schedule (block st) in
  let '(a, b, c, d, e) := rounds blk (h0 st, h1 st, h2 st, h3 st, h4 st) in
  {| h0 := JS.or (h0 st + a) 0;
     h1 := JS.or (h1 st + b) 0;
     h2 := JS.or (h2 st + c) 0;
     h3 := JS.or (h3 st + d) 0;
     h4 := JS.or (h4 st + e) 0;
     block := clear16 blk;
     offset := 0;
     shift := shift st;
     totalLength := totalLength st;
     compressed := compressed st ++ [take 16 (block st)] |}.

#[global] Arguments schedule : simpl never.
#[global] Arguments rounds : simpl never.
#[global] Arguments clear16 : simpl never.
#[global] Arguments processBlock : simpl never.

(** [write]: the store into the current word and the cursor step ... *)
Definition store (byte : Z) (st : engine) : engine :=
  let blk := set (offset st)
                 (JS.or (get (block st) (offset st)) (JS.shl (JS.and byte 0xff) (shift st)))
                 (block st) in
  let '(o, s) := if shift st =? 0 then (S (offset st), 24) else (offset st, shift st - 8) in
  {| h0 := h0 st; h1 := h1 st; h2 := h2 st; h3 := h3 st; h4 := h4 st;
     block := blk; offset := o; shift := s;
     totalLength := totalLength st; compressed := compressed st |}.

(** ... followed by the test [if (offset === 16) processBlock()]. *)
Definition write (byte : Z) (st : engine) : engine :=
  let st := store byte st in
  if (offset st =? 16)%nat then processBlock st else st.

Definition addLength (n : Z) (st : engine) : engine :=
  {| h0 := h0 st; h1 := h1 st; h2 := h2 st; h3 := h3 st; h4 := h4 st;
     block := block st; offset := offset st; shift := shift st;
     totalLength := totalLength st + n; compressed := compressed st |}.

Definition setCursor (o : nat) (s : Z) (st : engine) : engine :=
  {| h0 := h0 st; h1 := h1 st; h2 := h2 st; h3 := h3 st; h4 := h4 st;
     block := block st; offset := o; shift := s;
     totalLength := totalLength st; compressed := compressed st |}.

(** The [for] loops of [update] and [updateString]: [write] each element. *)
Definition writeAll (l : list Z) (st : engine) : engine :=
  fold_left (fun st x => write x st) l st.

Definition updateString (s : list Z) (st : engine) : engine :=
  writeAll s (addLength (Z.of_nat (length s) * 8) st).

Definition update (c : chunk) (st : engine) : engine :=
  match c with
  | ChunkString s => updateString s st
  | ChunkArray a => writeAll a (addLength (Z.of_nat (length a) * 8) st)
  end.

Definition toHex (word : Z) : string :=
  fold_left (fun hex i => (hex ++ JS.toString16 (JS.and (JS.shr word i) 0xf))%string)
            [28; 24; 20; 16; 12; 8; 4; 0] ""%string.

(** First half of [digest]: the 0x80 byte, the optional extra block (the test
    [offset > 14 || (offset === 14 && shift < 24)]), and the cursor forced to
    word 14. *)
Definition needsExtraBlock (st : engine) : bool :=
  (14 <? offset st)%nat || ((offset st =? 14)%nat && (shift st <? 24)).

Definition digestPad (st : engine) : engine :=
  let st := write 0x80 st in
  let st := if needsExtraBlock st then processBlock st else st in
  setCursor 14 24 st.

(** Second half of [digest]: the eight length bytes.  The two quotients are
    doubles in the source; [write] only uses them through [& 0xff], which
    truncates toward zero, hence [Z.quot]. *)
Definition digestLength (st : engine) : engine :=
  let st := write 0x00 st in
  let st := write 0x00 st in
  let st := write (if totalLength st >? 0xffffffffff
                   then Z.quot (totalLength st) 0x10000000000 else 0x00) st in
  let st := write (if totalLength st >? 0xffffffff
                   then Z.quot (totalLength st) 0x100000000 else 0x00) st in
  fold_left (fun st s => write (JS.shr (totalLength st) s) st) [24; 16; 8; 0] st.

Definition hexState (st : engine) : string :=
  (toHex (h0 st) ++ toHex (h1 st) ++ toHex (h2 st) ++ toHex (h3 st) ++ toHex (h4 st))%string.

(** [digest()]: the returned string and the engine it leaves behind. *)
Definition digest (st : engine) : string * engine :=
  let st := digestLength (digestPad st) in
  (hexState st, st).

(** [createJs(sync)]; [shared] is the module-level scratch array. *)
Definition createJs (sync : bool) (shared : list Z) : engine :=
  {| h0 := 0x67452301; h1 := 0xEFCDAB89; h2 := 0x98BADCFE; h3 := 0x10325476;
     h4 := 0xC3D2E1F0;
     block := if sync then shared else newBlock;
     offset := 0; shift := 24; totalLength := 0; compressed := [] |}.

(** The code units of a string literal. *)
Definition codeUnits (s : string) : list Z :=
  map (fun c => Z.of_N (N_of_ascii c)) (list_ascii_of_string s).

(** [sha1(buffer)] with a string argument, in an environment where [create]
    is [createJs]: the digest, and the shared array as the call leaves it. *)
Definition sha1 (buffer : list Z) (shared : list Z) : string * list Z :=
  let shasum := createJs true shared in
  let shasum := update (ChunkString buffer) shasum in
  let '(hex, shasum) := digest shasum in
  (hex, block shasum).

(** A sequence of [update] calls, first chunk first. *)
Definition updates (cs : list chunk) (st : engine) : engine :=
  fold_left (fun st c => update c st) cs st.

(** The bytes (elements, code units) of a sequence of chunks, in order. *)
Definition bytesOf (cs : list chunk) : list Z := concat (map chunkData cs).

(** A [Uint32Array(80)]: eighty words, each below 2^32. *)
Definition wfBlock (b : list Z) : Prop :=
  length b = 80%nat /\ Forall (fun w => 0 <= w < 4294967296) b.

(** ** Block processing in the words of the specification

    Unsigned 32-bit words, arithmetic modulo 2^32; written from the
    specification's description of [processBlock], to be compared with the
    code above. *)

Module Spec.

(** rotate-left-[n] of a 32-bit word *)
Definition rotl (n : Z) (u : Z) : Z :=
  Z.lor (Z.shiftl u n mod 4294967296) (Z.shiftr u (32 - n)).

(** the nonlinear function and the constant of round [i] *)
Definition f (i : nat) (b c d : Z) : Z :=
  if (i <? 20)%nat then Z.lxor d (Z.land b (Z.lxor c d))
  else if (i <? 40)%nat then Z.lxor (Z.lxor b c) d
  else if (i <? 60)%nat then Z.lor (Z.land b c) (Z.land d (Z.lor b c))
  else Z.lxor (Z.lxor b c) d.

Definition k (i : nat) : Z :=
  if (i <? 20)%nat then 0x5A827999
  else if (i <? 40)%nat then 0x6ED9EBA1
  else if (i <? 60)%nat then 0x8F1BBCDC
  else 0xCA62C1D6.

(** the right-hand side of the schedule equation for [w[i]] *)
Definition scheduled (w : list Z) (i : nat) : Z :=
  rotl 1 (Z.lxor (Z.lxor (Z.lxor (get w (i - 3)) (get w (i - 8))) (get w (i - 14)))
                 (get w (i - 16))).

(** one round: temp, then e=d, d=c, c=rotl30(b), b=a, a=temp *)
Definition round (w : list Z) (v : vars) (i : nat) : vars :=
  let '(a, b, c, d, e) := v in
  let temp := (rotl 5 a + f i b c d + e + k i + get w i) mod 4294967296 in
  (temp, a, rotl 30 b, c, d).

(** eighty rounds from the chaining values, then the state merge *)
Definition compress (w : list Z) (h : vars) : vars :=
  let '(a, b, c, d, e) := fold_left (round w) (seq 0 80) h in
  let '(x0, x1, x2, x3, x4) := h in
  ((x0 + a) mod 4294967296, (x1 + b) mod 4294967296, (x2 + c) mod 4294967296,
   (x3 + d) mod 4294967296, (x4 + e) mod 4294967296).

End Spec.

(** The chaining values of an engine, and five numbers as 32-bit words. *)
Definition chaining (st : engine) : vars := (h0 st, h1 st, h2 st, h3 st, h4 st).

Definition toWords (v : vars) : vars :=
  let '(a, b, c, d, e) := v in
  (JS.ToUint32 a, JS.ToUint32 b, JS.ToUint32 c, JS.ToUint32 d, JS.ToUint32 e).

#[global] Instance wfBlock_dec (b : list Z) : Decision (wfBlock b).
Proof. unfold wfBlock. apply _. Defined.

(** ** Predicates on engines and blocks *)

(** The engine with its block and cursor replaced (used to state what a
    sequence of writes amounts to). *)
Definition withBlock (b : list Z) (o : nat) (s : Z) (st : engine) : engine :=
  {| h0 := h0 st; h1 := h1 st; h2 := h2 st; h3 := h3 st; h4 := h4 st;
     block := b; offset := o; shift := s;
     totalLength := totalLength st; compressed := compressed st |}.

(** A cursor inside the sixteen input words. *)
Definition validCursor (o : nat) (s : Z) : Prop :=
  (o <= 15)%nat /\ (s = 24 \/ s = 16 \/ s = 8 \/ s = 0).

(** Every byte of the sixteen input words at or after the cursor [(o, s)] is
    zero: the low [s + 8] bits of word [o], and the words after it. *)
Definition zeroFrom (b : list Z) (o : nat) (s : Z) : Prop :=
  get b o mod 2 ^ (s + 8) = 0 /\ forall j, (o < j < 16)%nat -> get b j = 0.

(** The state of an engine between two writes. *)
Definition tidy (st : engine) : Prop :=
  wfBlock (block st) /\ validCursor (offset st) (shift st)
  /\ zeroFrom (block st) (offset st) (shift st).

(** A block whose sixteen input words are zero. *)
Definition cleanBlock (b : list Z) : Prop :=
  wfBlock b /\ take 16 b = replicate 16 0.

#[global] Instance cleanBlock_dec (b : list Z) : Decision (cleanBlock b).
Proof. unfold cleanBlock. apply _. Defined.

(** Bytes of the current block that the cursor has passed. *)
Definition cursorBytes (st : engine) : Z :=
  Z.of_nat (offset st) * 4 + (3 - shift st / 8).

(** ** Shape of the output *)

Definition isLowerHex (c : ascii) : bool :=
  existsb (Ascii.eqb c) (list_ascii_of_string "0123456789abcdef").

Definition allLowerHex (s : string) : bool :=
  forallb isLowerHex (list_ascii_of_string s).



(** ** The length field *)

(** Four bytes packed into a word, first byte most significant, each value
    reduced to its low eight bits as [write] does. *)
Definition bigEndian (x0 x1 x2 x3 : Z) : Z :=
  x0 mod 256 * 2 ^ 24 + x1 mod 256 * 2 ^ 16 + x2 mod 256 * 2 ^ 8 + x3 mod 256.

(** The eight values that [digest] passes to [write] for a length [len]. *)
Definition lengthBytes (len : Z) : list Z :=
  [0x00; 0x00;
   if len >? 0xffffffffff then Z.quot len 0x10000000000 else 0x00;
   if len >? 0xffffffff then Z.quot len 0x100000000 else 0x00;
   JS.shr len 24; JS.shr len 16; JS.shr len 8; JS.shr len 0].

(** What these bytes make of words 14 and 15. *)
Definition lengthHigh (len : Z) : Z :=
  bigEndian 0x00 0x00
    (if len >? 0xffffffffff then Z.quot len 0x10000000000 else 0x00)
    (if len >? 0xffffffff then Z.quot len 0x100000000 else 0x00).

Definition lengthLow (len : Z) : Z :=
  bigEndian (JS.shr len 24) (JS.shr len 16) (JS.shr len 8) (JS.shr len 0).

(** ** Sessions

    A session is one engine's whole life: construction, some [update] calls,
    one [digest] call.  With [sync] the engine works in the module's shared
    array, so the session leaves that array as its last operation left it.
    [sha1(buffer)] is the session [session true [ChunkString buffer]]. *)

Definition session (sync : bool) (cs : list chunk) (shared : list Z) : string * list Z :=
  let '(hex, st) := digest (updates cs (createJs sync shared)) in
  (hex, if sync then block st else shared).

(** The shared array after a sequence of sessions, earliest first. *)
Definition sessions (history : list (bool * list chunk)) (shared : list Z) : list Z :=
  fold_left (fun sh p => snd (session (fst p) (snd p) sh)) history shared.

(** Engines that differ at most in words 16..79 of their blocks. *)
Definition sameInput (st st' : engine) : Prop :=
  chaining st = chaining st' /\ offset st = offset st' /\ shift st = shift st' /\
  totalLength st = totalLength st' /\ compressed st = compressed st' /\
  take 16 (block st) = take 16 (block st') /\ wfBlock (block st) /\ wfBlock (block st').

(** ** Inputs used as examples *)

(** "abc" in four chunks, two of them empty. *)
Definition abcChunks : list chunk :=
  [ChunkArray []; ChunkString [97]; ChunkArray [98; 99]; ChunkString []].

(** 2^45 zero bytes, fed as 2^25 arrays of 2^20 bytes: 2^48 bits in all. *)
Definition hugeInput : list chunk :=
  replicate (Z.to_nat 33554432) (ChunkArray (replicate (Z.to_nat 1048576) 0)).



(** ** Sizes of the numbers in [processBlock]

    [c], [d], [e] and the chaining values are int32 or uint32 values; [a]
    and [b] hold an unreduced sum of five such values. *)
Definition word33 (x : Z) : Prop := -2147483648 <= x < 4294967296.

Definition smallVars (v : vars) : Prop :=
  let '(a, b, c, d, e) := v in
  (-17179869184 < a < 17179869184) /\ (-17179869184 < b < 17179869184) /\
  word33 c /\ word33 d /\ word33 e.

(** ** SHA-1 in the words of FIPS 180 (for comparison)

    The message is a list of bytes (numbers in 0..255). *)

Module Fips.

Definition IV : vars := (0x67452301, 0xEFCDAB89, 0x98BADCFE, 0x10325476, 0xC3D2E1F0).

(** the bit length as eight bytes, most significant first *)
Definition be64 (len : Z) : list Z :=
map (fun i => (len / 2 ^ (8 * i)) mod 256) [7; 6; 5; 4; 3; 2; 1; 0].

(** the message, a 0x80 byte, zero bytes up to 56 modulo 64, the length *)
Definition pad (msg : list Z) : list Z :=
msg ++ [0x80] ++ replicate (Z.to_nat ((55 - Z.of_nat (length msg)) mod 64)) 0
    ++ be64 (8 * Z.of_nat (length msg)).

(** four bytes as a big-endian word, and a byte string as words *)
Definition word (b0 b1 b2 b3 : Z) : Z := b0 * 2 ^ 24 + b1 * 2 ^ 16 + b2 * 2 ^ 8 + b3.

Fixpoint words (bs : list Z) : list Z :=
match bs with
| b0 :: b1 :: b2 :: b3 :: rest => word b0 b1 b2 b3 :: words rest
| _ => []
end.

(** the first [k] groups of 64 bytes *)
Fixpoint chop (k : nat) (bs : list Z) : list (list Z) :=
match k with
| O => []
| S k => take 64 bs :: chop k (drop 64 bs)
end.

(** the 16-word blocks of a byte string *)
Definition blocks (bs : list Z) : list (list Z) :=
map words (chop (length bs / 64) bs).

(** the message schedule of a block: 80 words from 16 *)
Definition expand (m : list Z) : list Z :=
Nat.iter 64 (fun w => w ++ [Spec.scheduled w (length w)]) m.

Definition compress (h : vars) (m : list Z) : vars := Spec.compress (expand m) h.

Definition sha1 (msg : list Z) : vars := fold_left compress (blocks (pad msg)) IV.

(** a 32-bit word as eight lowercase hexadecimal digits *)
Definition hexDigit (d : Z) : ascii :=
nth (Z.to_nat d) (list_ascii_of_string "0123456789abcdef") "0"%char.

Definition hexWord (u : Z) : string :=
string_of_list_ascii
  (map (fun i => hexDigit ((u / 16 ^ i) mod 16)) [7; 6; 5; 4; 3; 2; 1; 0]).

Definition render (h : vars) : string :=
let '(a, b, c, d, e) := h in
(hexWord a ++ hexWord b ++ hexWord c ++ hexWord d ++ hexWord e)%string.

(** the value of a string of hexadecimal digits *)
Definition digitValue (c : ascii) : Z :=
let n := Z.of_N (N_of_ascii c) in
if (48 <=? n) && (n <=? 57) then n - 48 else n - 87.

Definition hexValue (s : string) : Z :=
fold_left (fun acc c => 16 * acc + digitValue c) (list_ascii_of_string s) 0.

End Fips.

(** The input bytes as [write] sees them. *)
Definition lowBytes (l : list Z) : list Z := map (fun v => v mod 256) l.

(** The engine with its cursor moved to byte [p] of the block. *)
Definition seek (p : Z) (st : engine) : engine :=
  setCursor (Z.to_nat (p / 4)) (24 - 8 * (p mod 4)) st.

(** The number of zero bytes between the 0x80 byte and the length field,
    when the 0x80 byte left the cursor at byte [p] of the block. *)
Definition zerosAfter (p : Z) : nat :=
  Z.to_nat (if p <=? 56 then 56 - p else 120 - p).

(** An engine between two blocks: cursor at the start of a zeroed block. *)
Definition atBoundary (st : engine) : Prop :=
  cleanBlock (block st) /\ offset st = 0%nat /\ shift st = 24.

(** The five chaining values as int32 or uint32 numbers. *)
Definition chainingInRange (st : engine) : Prop :=
  word33 (h0 st) /\ word33 (h1 st) /\ word33 (h2 st) /\ word33 (h3 st) /\ word33 (h4 st).

(** An input of 70 bytes in three chunks, and a second input. *)
Definition longChunks : list chunk :=
  [ChunkString (replicate 30 97); ChunkArray (replicate 34 98); ChunkString (replicate 6 99)].

Definition moreChunks : list chunk := [ChunkArray [100; 101]; ChunkString [102]].

(** A shared array that an earlier session has used, and 120 bytes of input:
    on that array they leave one block of data processed and 56 bytes in the
    current block. *)
Definition usedShared : list Z := sessions [(true, longChunks)] newBlock.

Definition paddingChunks : list chunk :=
  [ChunkString (replicate 70 97); ChunkArray (replicate 50 98)].

(** ** The 32-bit operators, bit by bit *)

Section Words.

Lemma ToUint32_range x : 0 <= JS.ToUint32 x < 4294967296.
Proof. unfold JS.ToUint32. apply Z.mod_pos_bound. lia. Qed.

Lemma ToUint32_small x : 0 <= x < 4294967296 -> JS.ToUint32 x = x.
Proof. intros H. unfold JS.ToUint32. apply Z.mod_small, H. Qed.

Lemma ToInt32_range x : -2147483648 <= JS.ToInt32 x < 2147483648.
Proof.
  unfold JS.ToInt32. pose proof (ToUint32_range x) as H. unfold JS.ToUint32 in H.
  cbv zeta. destruct (Z.leb_spec 2147483648 (x mod 4294967296)); lia.
Qed.

(** [ToInt32 x] and [x] differ by a multiple of 2^32. *)
Lemma ToUint32_ToInt32 x : JS.ToUint32 (JS.ToInt32 x) = JS.ToUint32 x.
Proof.
  unfold JS.ToInt32, JS.ToUint32. cbv zeta.
  destruct (2147483648 <=? x mod 4294967296).
  - replace (x mod 4294967296 - 4294967296)
      with (x mod 4294967296 + (-1) * 4294967296) by lia.
    rewrite Z.mod_add by lia. apply Z.mod_mod. lia.
  - apply Z.mod_mod. lia.
Qed.

Lemma ToUint32_idem x : JS.ToUint32 (JS.ToUint32 x) = JS.ToUint32 x.
Proof. unfold JS.ToUint32. apply Z.mod_mod. lia. Qed.

Lemma ToInt32_small x : -2147483648 <= x < 2147483648 -> JS.ToInt32 x = x.
Proof.
  intros H. unfold JS.ToInt32. cbv zeta.
  destruct (Z.leb_spec 2147483648 (x mod 4294967296)) as [L|L];
    revert L; Z.div_mod_to_equations; lia.
Qed.

Lemma testbit_ToUint32 x i :
  Z.testbit (JS.ToUint32 x) i = (i <? 32) && Z.testbit x i.
Proof.
  unfold JS.ToUint32. change 4294967296 with (2 ^ 32).
  apply Z.testbit_mod_pow2. lia.
Qed.

Lemma testbit_ToInt32 x i : i < 32 -> Z.testbit (JS.ToInt32 x) i = Z.testbit x i.
Proof.
  intros Hi.
  assert (E : Z.testbit (JS.ToUint32 (JS.ToInt32 x)) i = Z.testbit (JS.ToUint32 x) i)
    by (rewrite ToUint32_ToInt32; reflexivity).
  rewrite !testbit_ToUint32 in E.
  destruct (Z.ltb_spec i 32); [exact E | lia].
Qed.

(** Two numbers with the same low 32 bits have the same [ToUint32]. *)
Lemma ToUint32_bits x y :
  (forall i, 0 <= i < 32 -> Z.testbit x i = Z.testbit y i) ->
  JS.ToUint32 x = JS.ToUint32 y.
Proof.
  intros H. apply Z.bits_inj'. intros i Hi. rewrite !testbit_ToUint32.
  destruct (Z.ltb_spec i 32); [apply H; lia | reflexivity].
Qed.

Lemma ToUint32_and x y :
  JS.ToUint32 (JS.and x y) = Z.land (JS.ToUint32 x) (JS.ToUint32 y).
Proof.
  apply Z.bits_inj'. intros i Hi. unfold JS.and.
  rewrite Z.land_spec, !testbit_ToUint32, Z.land_spec.
  destruct (Z.ltb_spec i 32); [|reflexivity].
  rewrite !testbit_ToInt32 by lia. reflexivity.
Qed.

Lemma ToUint32_or x y :
  JS.ToUint32 (JS.or x y) = Z.lor (JS.ToUint32 x) (JS.ToUint32 y).
Proof.
  apply Z.bits_inj'. intros i Hi. unfold JS.or.
  rewrite Z.lor_spec, !testbit_ToUint32, Z.lor_spec.
  destruct (Z.ltb_spec i 32); [|reflexivity].
  rewrite !testbit_ToInt32 by lia. reflexivity.
Qed.

Lemma ToUint32_xor x y :
  JS.ToUint32 (JS.xor x y) = Z.lxor (JS.ToUint32 x) (JS.ToUint32 y).
Proof.
  apply Z.bits_inj'. intros i Hi. unfold JS.xor.
  rewrite Z.lxor_spec, !testbit_ToUint32, Z.lxor_spec.
  destruct (Z.ltb_spec i 32); [|reflexivity].
  rewrite !testbit_ToInt32 by lia. reflexivity.
Qed.

Lemma ToUint32_or_0 x : JS.ToUint32 (JS.or x 0) = JS.ToUint32 x.
Proof. rewrite ToUint32_or. change (JS.ToUint32 0) with 0. apply Z.lor_0_r. Qed.

Lemma ToUint32_add x y :
  JS.ToUint32 (x + y) = JS.ToUint32 (JS.ToUint32 x + JS.ToUint32 y).
Proof. unfold JS.ToUint32. apply Z.add_mod. lia. Qed.

Lemma ToUint32_shl x n :
  0 <= n < 32 -> JS.ToUint32 (JS.shl x n) = JS.ToUint32 (Z.shiftl (JS.ToUint32 x) n).
Proof.
  intros Hn. unfold JS.shl. rewrite ToUint32_ToInt32, Z.mod_small by lia.
  apply ToUint32_bits. intros i Hi. rewrite !Z.shiftl_spec by lia.
  destruct (Z.ltb_spec (i - n) 0).
  - rewrite !Z.testbit_neg_r by lia. reflexivity.
  - rewrite testbit_ToInt32, testbit_ToUint32 by lia.
    destruct (Z.ltb_spec (i - n) 32); [reflexivity | lia].
Qed.

Lemma shru_range x n : 0 <= n < 32 -> 0 <= JS.shru x n < 4294967296.
Proof.
  intros Hn. unfold JS.shru. rewrite Z.mod_small, Z.shiftr_div_pow2 by lia.
  pose proof (ToUint32_range x) as Hx.
  assert (0 < 2 ^ n) by (apply Z.pow_pos_nonneg; lia).
  split; [apply Z.div_pos; lia|].
  apply Z.le_lt_trans with (JS.ToUint32 x); [|lia].
  apply Z.div_le_upper_bound; nia.
Qed.

End Words.

(** ** Projections through the operations *)

(** Reduce record projections only: the loops of [processBlock] are never
    unfolded by accident. *)
Ltac fields :=
  cbn [h0 h1 h2 h3 h4 block offset shift totalLength compressed] in *.

Section Projections.

Lemma processBlock_totalLength st : totalLength (processBlock st) = totalLength st.
Proof. unfold processBlock. destruct (rounds _ _) as [[[[a b] c] d] e]. reflexivity. Qed.

Lemma processBlock_offset st : offset (processBlock st) = 0%nat.
Proof. unfold processBlock. destruct (rounds _ _) as [[[[a b] c] d] e]. reflexivity. Qed.

Lemma processBlock_shift st : shift (processBlock st) = shift st.
Proof. unfold processBlock. destruct (rounds _ _) as [[[[a b] c] d] e]. reflexivity. Qed.

Lemma processBlock_compressed st :
  compressed (processBlock st) = compressed st ++ [take 16 (block st)].
Proof. unfold processBlock. destruct (rounds _ _) as [[[[a b] c] d] e]. reflexivity. Qed.

Lemma processBlock_addLength n st :
  processBlock (addLength n st) = addLength n (processBlock st).
Proof.
  unfold processBlock, addLength; fields.
  destruct (rounds _ _) as [[[[a b] c] d] e]. fields. reflexivity.
Qed.

Lemma store_addLength x n st : store x (addLength n st) = addLength n (store x st).
Proof. unfold store, addLength; fields. destruct (shift st =? 0); reflexivity. Qed.

Lemma store_totalLength x st : totalLength (store x st) = totalLength st.
Proof. unfold store. destruct (shift st =? 0); reflexivity. Qed.

Lemma store_compressed x st : compressed (store x st) = compressed st.
Proof. unfold store. destruct (shift st =? 0); reflexivity. Qed.

Lemma write_addLength x n st : write x (addLength n st) = addLength n (write x st).
Proof.
  unfold write. rewrite store_addLength.
  change (offset (addLength n (store x st))) with (offset (store x st)).
  destruct (offset (store x st) =? 16)%nat; [apply processBlock_addLength | reflexivity].
Qed.

Lemma write_totalLength x st : totalLength (write x st) = totalLength st.
Proof.
  unfold write. destruct (offset (store x st) =? 16)%nat;
    rewrite ?processBlock_totalLength; apply store_totalLength.
Qed.

Lemma writeAll_app l1 l2 st : writeAll (l1 ++ l2) st = writeAll l2 (writeAll l1 st).
Proof. apply fold_left_app. Qed.

Lemma writeAll_addLength l n st : writeAll l (addLength n st) = addLength n (writeAll l st).
Proof.
  revert st. induction l as [|x l IH]; intros st; [reflexivity|].
  simpl. rewrite write_addLength. apply IH.
Qed.

Lemma writeAll_totalLength l st : totalLength (writeAll l st) = totalLength st.
Proof.
  revert st. induction l as [|x l IH]; intros st; [reflexivity|].
  simpl. rewrite IH. apply write_totalLength.
Qed.

Lemma addLength_addLength n m st : addLength m (addLength n st) = addLength (n + m) st.
Proof. unfold addLength; simpl. f_equal. lia. Qed.

Lemma addLength_0 st : addLength 0 st = st.
Proof. destruct st; unfold addLength; simpl. f_equal. lia. Qed.

(** An [update] is its writes, with the length added once. *)
Lemma update_writeAll c st :
  update c st = addLength (Z.of_nat (length (chunkData c)) * 8) (writeAll (chunkData c) st).
Proof. destruct c; simpl; unfold updateString; apply writeAll_addLength. Qed.

Lemma updates_writeAll cs st :
  updates cs st = addLength (Z.of_nat (length (bytesOf cs)) * 8) (writeAll (bytesOf cs) st).
Proof.
  revert st. induction cs as [|c cs IH]; intros st.
  - simpl. symmetry. apply addLength_0.
  - change (updates (c :: cs) st) with (updates cs (update c st)).
    rewrite IH, update_writeAll, writeAll_addLength, addLength_addLength.
    unfold bytesOf; simpl. rewrite writeAll_app, length_app. f_equal. lia.
Qed.

End Projections.

(** ** Chunking *)

(** C2 (chunking independence).  Feeding a fresh engine the chunks [c1..cn]
    one [update] at a time, then calling [digest], returns the same string
    as feeding it one chunk [S] holding the same bytes; empty and one-byte
    chunks are chunks like any other. *)
Theorem chunking_independence (sync : bool) (shared : list Z) (cs : list chunk) (S : chunk) :
  chunkData S = bytesOf cs ->
  fst (digest (updates cs (createJs sync shared)))
  = fst (digest (update S (createJs sync shared))).
Proof.
  intros HS. rewrite updates_writeAll, update_writeAll, HS. reflexivity.
Qed.

Lemma chunking_independence_witness :
  chunkData (ChunkString [97; 98; 99]) = bytesOf abcChunks /\
  fst (digest (updates abcChunks (createJs false newBlock)))
  = fst (digest (update (ChunkString [97; 98; 99]) (createJs false newBlock))).
Proof.
  split; [reflexivity | apply (chunking_independence false newBlock); reflexivity].
Defined.

(** ** [processBlock] against the specification's compression function *)

Section Compression.

Lemma wfBlock_get b i : wfBlock b -> 0 <= get b i < 4294967296.
Proof.
  intros [_ Hb]. unfold get. destruct (b !! i) as [w|] eqn:E; simpl; [|lia].
  exact (proj1 (Forall_lookup _ _) Hb i w E).
Qed.

Lemma wfBlock_set b i v : wfBlock b -> wfBlock (set i v b).
Proof.
  intros [Hl Hb]. unfold set. split; [rewrite length_insert; exact Hl|].
  apply Forall_insert; [exact Hb | apply ToUint32_range].
Qed.

Lemma get_set_eq b i v : (i < length b)%nat -> get (set i v b) i = JS.ToUint32 v.
Proof. intros H. unfold get, set. rewrite list_lookup_insert_eq by exact H. reflexivity. Qed.

Lemma get_set_ne b i j v : i <> j -> get (set i v b) j = get b j.
Proof. intros H. unfold get, set. rewrite list_lookup_insert_ne by exact H. reflexivity. Qed.

Lemma take_set_ge b i n v : (n <= i)%nat -> take n (set i v b) = take n b.
Proof. intros H. unfold set. apply take_insert_ge. exact H. Qed.

(** The rotation idiom [(x << n) | (x >>> (32 - n))]. *)
Lemma ToUint32_rotl x n :
  0 < n < 32 ->
  JS.ToUint32 (JS.or (JS.shl x n) (JS.shru x (32 - n))) = Spec.rotl n (JS.ToUint32 x).
Proof.
  intros Hn. rewrite ToUint32_or, ToUint32_shl by lia.
  rewrite (ToUint32_small (JS.shru _ _)) by (apply shru_range; lia).
  unfold JS.shru, Spec.rotl. rewrite (Z.mod_small (32 - n)) by lia. reflexivity.
Qed.

Lemma extend_get b i :
  wfBlock b -> (16 <= i < 80)%nat -> get (extend b i) i = Spec.scheduled b i.
Proof.
  intros Hb Hi. unfold extend. rewrite get_set_eq by (destruct Hb; lia).
  change 31 with (32 - 1). rewrite ToUint32_rotl by lia.
  rewrite !ToUint32_xor, !ToUint32_small by (apply wfBlock_get, Hb). reflexivity.
Qed.

Lemma scheduled_ext b b' i :
  (forall j, (j < i)%nat -> get b' j = get b j) -> (3 <= i)%nat ->
  Spec.scheduled b' i = Spec.scheduled b i.
Proof.
  intros H Hi. unfold Spec.scheduled. rewrite !H by lia. reflexivity.
Qed.

(** The extension loop, stopped after [k] iterations. *)
Lemma schedule_prefix b k :
  wfBlock b -> (k <= 64)%nat ->
  let w := fold_left extend (seq 16 k) b in
  wfBlock w /\ take 16 w = take 16 b /\
  forall i, (16 <= i < 16 + k)%nat -> get w i = Spec.scheduled w i.
Proof.
  intros Hb. induction k as [|k IH]; intros Hk; cbv zeta.
  - simpl. repeat split; try apply Hb. intros i Hi. lia.
  - rewrite seq_S, fold_left_app. simpl fold_left.
    destruct IH as (Hw & Ht & Hrec); [lia|].
    set (w := fold_left extend (seq 16 k) b) in *.
    assert (Hsame : forall j, (j < 16 + k)%nat -> get (extend w (16 + k)) j = get w j)
      by (intros j Hj; unfold extend; apply get_set_ne; lia).
    split; [apply wfBlock_set, Hw|]. split.
    + unfold extend. rewrite take_set_ge by lia. exact Ht.
    + intros i Hi. destruct (decide (i = 16 + k)%nat) as [->|Hne].
      * rewrite extend_get by (auto; lia). symmetry. apply scheduled_ext; [exact Hsame | lia].
      * rewrite Hsame by lia. rewrite Hrec by lia. symmetry.
        apply scheduled_ext; [|lia]. intros j Hj. apply Hsame. lia.
Qed.

Lemma schedule_spec b :
  wfBlock b ->
  wfBlock (schedule b) /\ take 16 (schedule b) = take 16 b /\
  forall i, (16 <= i < 80)%nat -> get (schedule b) i = Spec.scheduled (schedule b) i.
Proof. intros Hb. exact (schedule_prefix b 64 Hb (le_n _)). Qed.

Lemma ToUint32_sum5 a b c d e :
  JS.ToUint32 (a + b + c + d + e)
  = (JS.ToUint32 a + JS.ToUint32 b + JS.ToUint32 c + JS.ToUint32 d + JS.ToUint32 e)
      mod 4294967296.
Proof. unfold JS.ToUint32. Z.div_mod_to_equations. lia. Qed.

Lemma ToUint32_sum2 a b :
  JS.ToUint32 (JS.or (a + b) 0) = (JS.ToUint32 a + JS.ToUint32 b) mod 4294967296.
Proof. rewrite ToUint32_or_0. unfold JS.ToUint32. Z.div_mod_to_equations. lia. Qed.

(** One round of the code is one round of the specification on the words. *)
Lemma round_spec w v i :
  wfBlock w -> toWords (round w v i) = Spec.round w (toWords v) i.
Proof.
  intros Hw. destruct v as [[[[a b] c] d] e].
  unfold round, Spec.round, Spec.f, Spec.k, toWords.
  destruct (i <? 20)%nat; [|destruct (i <? 40)%nat; [|destruct (i <? 60)%nat]];
    rewrite ToUint32_sum5;
    change 27 with (32 - 5); change 2 with (32 - 30);
    rewrite !ToUint32_rotl by lia;
    rewrite ToUint32_or_0, (ToUint32_small (get w i)) by (apply wfBlock_get, Hw);
    rewrite ?ToUint32_xor, ?ToUint32_or, ?ToUint32_and, ?ToUint32_xor, ?ToUint32_or;
    reflexivity.
Qed.

Lemma rounds_spec w l v :
  wfBlock w -> toWords (fold_left (round w) l v) = fold_left (Spec.round w) l (toWords v).
Proof.
  intros Hw. revert v. induction l as [|i l IH]; intros v; [reflexivity|].
  simpl fold_left. rewrite IH, round_spec by exact Hw. reflexivity.
Qed.

Lemma processBlock_chaining st :
  wfBlock (block st) ->
  toWords (chaining (processBlock st))
  = Spec.compress (schedule (block st)) (toWords (chaining st)).
Proof.
  intros Hb. destruct (schedule_spec _ Hb) as (Hw & _ & _).
  unfold Spec.compress, processBlock, chaining.
  pose proof (rounds_spec (schedule (block st)) (seq 0 80)
                (h0 st, h1 st, h2 st, h3 st, h4 st) Hw) as HR.
  unfold rounds. destruct (fold_left (round _) _ _) as [[[[a b] c] d] e].
  rewrite <- HR. fields. unfold toWords. rewrite !ToUint32_sum2. reflexivity.
Qed.

End Compression.

(** C3.  Every call of [processBlock] on a block of eighty 32-bit words
    fills words 16..79 by w[i] = rotl1(w[i-3] xor w[i-8] xor w[i-14] xor
    w[i-16]) above the sixteen input words, runs the eighty rounds of the
    specification (f and k by range, temp = rotl5(a) + f + e + k + w[i] mod
    2^32, then e=d, d=c, c=rotl30(b), b=a, a=temp) from the chaining values,
    and adds a..e into h0..h4 modulo 2^32.  The code keeps h0..h4 as signed
    int32 numbers; they are compared as 32-bit words. *)
Theorem processBlock_spec (st : engine) :
  wfBlock (block st) ->
  let w := schedule (block st) in
  take 16 w = take 16 (block st) /\
  (forall i, (16 <= i < 80)%nat -> get w i = Spec.scheduled w i) /\
  toWords (chaining (processBlock st)) = Spec.compress w (toWords (chaining st)).
Proof.
  intros Hb. destruct (schedule_spec _ Hb) as (_ & Ht & Hrec).
  cbv zeta. split; [exact Ht|]. split; [exact Hrec|].
  apply processBlock_chaining, Hb.
Qed.

Lemma processBlock_spec_witness :
  wfBlock (block (createJs false newBlock)) /\
  (let w := schedule (block (createJs false newBlock)) in
   take 16 w = take 16 (block (createJs false newBlock)) /\
   (forall i, (16 <= i < 80)%nat -> get w i = Spec.scheduled w i) /\
   toWords (chaining (processBlock (createJs false newBlock)))
   = Spec.compress w (toWords (chaining (createJs false newBlock)))).
Proof.
  assert (H : wfBlock (block (createJs false newBlock)))
    by (apply (bool_decide_unpack _); vm_compute; exact I).
  split; [exact H | apply (processBlock_spec (createJs false newBlock)); exact H].
Defined.

(** ** The sums of [processBlock] stay far below 2^53

    This is what makes integer arithmetic a faithful model of the source's
    double arithmetic: the working variables stay below 2^34 in magnitude,
    so no sum comes near 2^53. *)

Section Exactness.

Lemma int32_shiftr x :
  -2147483648 <= x < 2147483648 <-> (Z.shiftr x 31 = 0 \/ Z.shiftr x 31 = -1).
Proof.
  rewrite Z.shiftr_div_pow2 by lia. change (2 ^ 31) with 2147483648.
  split; intros H; Z.div_mod_to_equations; lia.
Qed.

Lemma or_int32 x y : -2147483648 <= JS.or x y < 2147483648.
Proof.
  unfold JS.or. apply int32_shiftr. rewrite Z.shiftr_lor.
  destruct (proj1 (int32_shiftr _) (ToInt32_range x)) as [-> | ->],
           (proj1 (int32_shiftr _) (ToInt32_range y)) as [-> | ->]; auto.
Qed.

Lemma and_int32 x y : -2147483648 <= JS.and x y < 2147483648.
Proof.
  unfold JS.and. apply int32_shiftr. rewrite Z.shiftr_land.
  destruct (proj1 (int32_shiftr _) (ToInt32_range x)) as [-> | ->],
           (proj1 (int32_shiftr _) (ToInt32_range y)) as [-> | ->]; auto.
Qed.

Lemma xor_int32 x y : -2147483648 <= JS.xor x y < 2147483648.
Proof.
  unfold JS.xor. apply int32_shiftr. rewrite Z.shiftr_lxor.
  destruct (proj1 (int32_shiftr _) (ToInt32_range x)) as [-> | ->],
           (proj1 (int32_shiftr _) (ToInt32_range y)) as [-> | ->]; auto.
Qed.

Lemma round_small blk v i : smallVars v -> smallVars (round blk v i).
Proof.
  destruct v as [[[[a b] c] d] e]. unfold smallVars, round, word33.
  intros (Ha & Hb & Hc & Hd & He).
  pose proof (or_int32 (JS.shl a 5) (JS.shru a 27)) as R5.
  pose proof (or_int32 (JS.shl b 30) (JS.shru b 2)) as R30.
  pose proof (or_int32 (get blk i) 0) as RW.
  pose proof (xor_int32 d (JS.and b (JS.xor c d))) as F1.
  pose proof (xor_int32 (JS.xor b c) d) as F2.
  pose proof (or_int32 (JS.and b c) (JS.and d (JS.or b c))) as F3.
  destruct (i <? 20)%nat; [|destruct (i <? 40)%nat; [|destruct (i <? 60)%nat]];
    repeat split; lia.
Qed.

Lemma rounds_small blk l v : smallVars v -> smallVars (fold_left (round blk) l v).
Proof.
  revert v. induction l as [|i l IH]; intros v H; [exact H|].
  simpl fold_left. apply IH, round_small, H.
Qed.

Lemma chaining_small v :
  (let '(a, b, c, d, e) := v in word33 a /\ word33 b /\ word33 c /\ word33 d /\ word33 e) ->
  smallVars v.
Proof.
  destruct v as [[[[a b] c] d] e]. unfold smallVars, word33. intros H. repeat split; lia.
Qed.

(** After a block the chaining values are int32 values. *)
Lemma processBlock_int32 st :
  let '(a, b, c, d, e) := chaining (processBlock st) in
  word33 a /\ word33 b /\ word33 c /\ word33 d /\ word33 e.
Proof.
  unfold processBlock, chaining. destruct (rounds _ _) as [[[[a b] c] d] e]. fields.
  unfold word33.
  pose proof (or_int32 (h0 st + a) 0). pose proof (or_int32 (h1 st + b) 0).
  pose proof (or_int32 (h2 st + c) 0). pose proof (or_int32 (h3 st + d) 0).
  pose proof (or_int32 (h4 st + e) 0). repeat split; lia.
Qed.

End Exactness.

(** ** Writing one byte *)

Section Store.

(** [byte & 0xff] keeps the low eight bits of an integral number. *)
Lemma and_255_val x : JS.and x 0xff = x mod 256.
Proof.
  unfold JS.and. change (JS.ToInt32 255) with (Z.ones 8).
  rewrite Z.land_ones by lia. change (2 ^ 8) with 256.
  unfold JS.ToInt32. cbv zeta.
  destruct (2147483648 <=? x mod 4294967296); Z.div_mod_to_equations; lia.
Qed.

Lemma and_255 x : JS.ToUint32 (JS.and x 0xff) = x mod 256.
Proof.
  rewrite and_255_val. apply ToUint32_small.
  pose proof (Z.mod_pos_bound x 256). lia.
Qed.


Lemma lor_disjoint w y n :
  0 <= n -> w mod 2 ^ n = 0 -> 0 <= y < 2 ^ n -> Z.lor w y = w + y.
Proof.
  intros Hn Hw Hy.
  assert (D : Z.land w y = 0).
  { apply Z.bits_inj'. intros i Hi. rewrite Z.land_spec, Z.bits_0.
    destruct (Z.ltb_spec i n).
    - assert (E : Z.testbit (w mod 2 ^ n) i = (i <? n) && Z.testbit w i)
        by (apply Z.testbit_mod_pow2; lia).
      rewrite Hw, Z.bits_0 in E. destruct (Z.ltb_spec i n); [|lia].
      simpl in E. rewrite <- E. reflexivity.
    - assert (E : Z.testbit (y mod 2 ^ n) i = (i <? n) && Z.testbit y i)
        by (apply Z.testbit_mod_pow2; lia).
      rewrite Z.mod_small in E by lia. destruct (Z.ltb_spec i n); [lia|].
      simpl in E. rewrite E. apply andb_false_r. }
  rewrite <- Z.lxor_lor by exact D. symmetry. apply Z.add_nocarry_lxor, D.
Qed.

(** The store [block[offset] |= (byte & 0xff) << shift] into a word whose
    bytes from the cursor on are zero adds the byte at its place. *)
Lemma or_byte w x s :
  0 <= w < 4294967296 -> w mod 2 ^ (s + 8) = 0 ->
  s = 24 \/ s = 16 \/ s = 8 \/ s = 0 ->
  JS.ToUint32 (JS.or w (JS.shl (JS.and x 0xff) s)) = w + x mod 256 * 2 ^ s.
Proof.
  intros Hw Hz Hs.
  assert (Hb : 0 <= x mod 256 < 256) by (apply Z.mod_pos_bound; lia).
  rewrite ToUint32_or, (ToUint32_small w), ToUint32_shl, and_255 by lia.
  rewrite Z.shiftl_mul_pow2 by lia.
  assert (Hy : 0 <= x mod 256 * 2 ^ s < 2 ^ (s + 8)).
  { destruct Hs as [-> | [-> | [-> | ->]]]; simpl Z.add; lia. }
  rewrite ToUint32_small.
  - apply (lor_disjoint w _ (s + 8)); [lia | exact Hz | exact Hy].
  - destruct Hs as [-> | [-> | [-> | ->]]]; simpl Z.add in Hy; lia.
Qed.

Lemma store_byte x st :
  wfBlock (block st) -> shift st = 24 \/ shift st = 16 \/ shift st = 8 \/ shift st = 0 ->
  get (block st) (offset st) mod 2 ^ (shift st + 8) = 0 ->
  store x st
  = withBlock (<[offset st := get (block st) (offset st) + x mod 256 * 2 ^ shift st]>
                 (block st))
              (if shift st =? 0 then S (offset st) else offset st)
              (if shift st =? 0 then 24 else shift st - 8) st.
Proof.
  intros Hwf Hs Hz.
  assert (Hw := wfBlock_get _ (offset st) Hwf).
  unfold store, withBlock, set. rewrite or_byte by assumption.
  destruct (shift st =? 0); reflexivity.
Qed.



Lemma store_wf x st : wfBlock (block st) -> wfBlock (block (store x st)).
Proof.
  intros H. unfold store. destruct (shift st =? 0); fields; apply wfBlock_set, H.
Qed.

Lemma write_nowrap x st : offset (store x st) <> 16%nat -> write x st = store x st.
Proof.
  intros H. unfold write. destruct (Nat.eqb_spec (offset (store x st)) 16); [lia | reflexivity].
Qed.

Lemma write_wrap x st :
  offset (store x st) = 16%nat -> write x st = processBlock (store x st).
Proof. intros H. unfold write. rewrite H. reflexivity. Qed.

End Store.

(** ** The invariant between writes *)

Section Tidy.

Lemma get_take b n j : (j < n)%nat -> get (take n b) j = get b j.
Proof. intros H. unfold get. rewrite lookup_take_lt by exact H. reflexivity. Qed.

Lemma cleanBlock_get b j : cleanBlock b -> (j < 16)%nat -> get b j = 0.
Proof.
  intros [_ H] Hj. rewrite <- (get_take b 16) by exact Hj. rewrite H.
  unfold get. rewrite lookup_replicate_2 by exact Hj. reflexivity.
Qed.

Lemma cleanBlock_zeroFrom b o s : cleanBlock b -> (o <= 15)%nat -> zeroFrom b o s.
Proof.
  intros H Ho. split.
  - rewrite (cleanBlock_get b o H) by lia. apply Zmod_0_l.
  - intros j Hj. apply (cleanBlock_get b j H). lia.
Qed.

Lemma newBlock_clean : cleanBlock newBlock.
Proof. apply (bool_decide_unpack _). vm_compute. exact I. Qed.

(** The reset loop at the end of [processBlock], stopped after [k] words. *)
Lemma clear_prefix b k :
  wfBlock b -> (k <= 80)%nat ->
  let c := fold_left (fun b i => set i 0 b) (seq 0 k) b in
  wfBlock c /\ take k c = replicate k 0.
Proof.
  intros Hb. induction k as [|k IH]; intros Hk; cbv zeta.
  - split; [exact Hb | reflexivity].
  - rewrite seq_S, fold_left_app. simpl fold_left.
    destruct IH as (Hc & Ht); [lia|].
    set (c := fold_left _ (seq 0 k) b) in *.
    split; [apply wfBlock_set, Hc|].
    assert (Hl : (k < length (set k 0 c))%nat)
      by (unfold set; rewrite length_insert; destruct Hc; lia).
    destruct (lookup_lt_is_Some_2 _ _ Hl) as [v Hv].
    rewrite (take_S_r _ _ _ Hv), take_set_ge, Ht by lia.
    assert (v = 0) as ->.
    { unfold set in Hv. rewrite list_lookup_insert_eq in Hv by (destruct Hc; lia).
      inversion Hv. reflexivity. }
    rewrite replicate_S_end. reflexivity.
Qed.

Lemma clear16_clean b : wfBlock b -> cleanBlock (clear16 b).
Proof. intros Hb. apply (clear_prefix b 16 Hb). lia. Qed.

Lemma processBlock_block st : block (processBlock st) = clear16 (schedule (block st)).
Proof. unfold processBlock. destruct (rounds _ _) as [[[[a b] c] d] e]. reflexivity. Qed.

Lemma processBlock_clean st : wfBlock (block st) -> cleanBlock (block (processBlock st)).
Proof.
  intros Hb. rewrite processBlock_block. apply clear16_clean.
  apply (schedule_spec _ Hb).
Qed.

Lemma processBlock_tidy st :
  wfBlock (block st) -> shift st = 24 \/ shift st = 16 \/ shift st = 8 \/ shift st = 0 ->
  tidy (processBlock st).
Proof.
  intros Hb Hs. pose proof (processBlock_clean st Hb) as Hc.
  unfold tidy. rewrite processBlock_offset, processBlock_shift.
  split; [apply Hc|]. split; [split; [lia | exact Hs]|].
  apply cleanBlock_zeroFrom; [exact Hc | lia].
Qed.

Lemma get_insert_eq (b : list Z) i v : (i < length b)%nat -> get (<[i := v]> b) i = v.
Proof. intros H. unfold get. rewrite list_lookup_insert_eq by exact H. reflexivity. Qed.

Lemma get_insert_ne (b : list Z) i j v : i <> j -> get (<[i := v]> b) j = get b j.
Proof. intros H. unfold get. rewrite list_lookup_insert_ne by exact H. reflexivity. Qed.

Lemma write_tidy x st : tidy st -> tidy (write x st).
Proof.
  intros (Hwf & (Ho & Hs) & (Hz & Hrest)).
  pose proof (store_wf x st Hwf) as Hwf'.
  pose proof (store_byte x st Hwf Hs Hz) as E.
  assert (Hy : 0 <= x mod 256 < 256) by (apply Z.mod_pos_bound; lia).
  assert (Hlen : (offset st < length (block st))%nat) by (destruct Hwf; lia).
  destruct (Z.eqb_spec (shift st) 0) as [H0 | H0].
  - destruct (decide (offset st = 15%nat)) as [H15 | H15].
    + rewrite write_wrap by (rewrite E; unfold withBlock; fields; lia).
      apply processBlock_tidy; [exact Hwf'|]. rewrite E. unfold withBlock; fields. auto.
    + rewrite write_nowrap by (rewrite E; unfold withBlock; fields; lia).
      split; [exact Hwf'|]. rewrite E. unfold withBlock; fields.
      split; [split; [lia | auto]|]. split.
      * rewrite get_insert_ne by lia. rewrite Hrest by lia. apply Zmod_0_l.
      * intros j Hj. rewrite get_insert_ne by lia. apply Hrest. lia.
  - rewrite write_nowrap by (rewrite E; unfold withBlock; fields; lia).
    split; [exact Hwf'|]. rewrite E. unfold withBlock; fields.
    split; [split; [lia | lia]|]. split.
    + rewrite get_insert_eq by exact Hlen.
      replace (shift st - 8 + 8) with (shift st) by lia.
      revert Hz. destruct Hs as [-> | [-> | [-> | Hs]]]; [| | |lia];
        simpl Z.add; intros Hz; Z.div_mod_to_equations; lia.
    + intros j Hj. rewrite get_insert_ne by lia. apply Hrest. lia.
Qed.

Lemma writeAll_tidy l st : tidy st -> tidy (writeAll l st).
Proof.
  revert st. induction l as [|x l IH]; intros st H; [exact H|].
  simpl. apply IH, write_tidy, H.
Qed.

Lemma createJs_tidy sync shared : cleanBlock shared -> tidy (createJs sync shared).
Proof.
  intros Hs.
  assert (Hc : cleanBlock (block (createJs sync shared)))
    by (destruct sync; [exact Hs | exact newBlock_clean]).
  split; [apply Hc|]. split; [split; [simpl; lia | simpl; auto]|].
  apply cleanBlock_zeroFrom; [exact Hc | simpl; lia].
Qed.

Lemma updates_tidy cs st : tidy st -> tidy (updates cs st).
Proof. intros H. rewrite updates_writeAll. apply (writeAll_tidy _ st H). Qed.

End Tidy.

(** ** The cursor and the length counter *)

Section Cursor.

Lemma write_cursor x st :
  validCursor (offset st) (shift st) ->
  validCursor (offset (write x st)) (shift (write x st)) /\
  64 * Z.of_nat (length (compressed (write x st))) + cursorBytes (write x st)
  = 64 * Z.of_nat (length (compressed st)) + cursorBytes st + 1.
Proof.
  intros (Ho & Hs). unfold write.
  assert (E : store x st
              = withBlock (block (store x st))
                  (if shift st =? 0 then S (offset st) else offset st)
                  (if shift st =? 0 then 24 else shift st - 8) st)
    by (unfold store, withBlock; destruct (shift st =? 0); reflexivity).
  destruct (Nat.eqb_spec (offset (store x st)) 16) as [H16 | H16].
  - rewrite E in H16. unfold withBlock in H16. fields.
    destruct (Z.eqb_spec (shift st) 0) as [H0 | H0]; [|lia].
    unfold validCursor, cursorBytes.
    rewrite processBlock_offset, processBlock_shift, processBlock_compressed.
    rewrite length_app, store_compressed. rewrite E. unfold withBlock; fields.
    rewrite H0. simpl length. change (24 / 8) with 3. change (0 / 8) with 0.
    split; [split; [lia | auto] | lia].
  - rewrite E in H16 |- *. unfold withBlock in H16 |- *. fields.
    unfold validCursor, cursorBytes. fields.
    destruct (Z.eqb_spec (shift st) 0) as [H0 | H0].
    + rewrite H0. change (24 / 8) with 3. change (0 / 8) with 0.
      split; [split; [lia | auto] | lia].
    + split; [split; [lia | lia]|].
      destruct Hs as [Hs | [Hs | [Hs | Hs]]]; [| | |lia];
        rewrite Hs; Z.div_mod_to_equations; lia.
Qed.

Lemma writeAll_cursor l st :
  validCursor (offset st) (shift st) ->
  let st' := writeAll l st in
  validCursor (offset st') (shift st') /\
  64 * Z.of_nat (length (compressed st')) + cursorBytes st'
  = 64 * Z.of_nat (length (compressed st)) + cursorBytes st + Z.of_nat (length l).
Proof.
  revert st. induction l as [|x l IH]; intros st Hv; cbv zeta.
  - simpl. split; [exact Hv | lia].
  - destruct (write_cursor x st Hv) as (Hv1 & E1).
    destruct (IH (write x st) Hv1) as (Hv2 & E2). cbv zeta in Hv2, E2.
    change (writeAll (x :: l) st) with (writeAll l (write x st)).
    split; [exact Hv2|]. rewrite E2, E1. simpl length. lia.
Qed.

End Cursor.


(** ** Shape of the digest string *)

Section Shape.

Lemma string_length_app (s1 s2 : string) :
  String.length (s1 ++ s2) = (String.length s1 + String.length s2)%nat.
Proof. induction s1 as [|c s1 IH]; simpl; [reflexivity | rewrite IH; reflexivity]. Qed.

Lemma allLowerHex_app (s1 s2 : string) :
  allLowerHex (s1 ++ s2) = allLowerHex s1 && allLowerHex s2.
Proof.
  unfold allLowerHex. induction s1 as [|c s1 IH]; simpl; [reflexivity|].
  rewrite IH. apply andb_assoc.
Qed.

Lemma toString16_shape n :
  0 <= n < 16 ->
  String.length (JS.toString16 n) = 1%nat /\ allLowerHex (JS.toString16 n) = true.
Proof.
  intros [Hlo Hhi]. destruct n as [|p|p]; [split; reflexivity| |lia].
  destruct p as [[[[q|q|]|[q|q|]|]|[[q|q|]|[q|q|]|]|]|[[[q|q|]|[q|q|]|]|[[q|q|]|[q|q|]|]|]|];
    first [split; reflexivity | lia].
Qed.

Lemma nibble_range x : 0 <= JS.and x 0xf < 16.
Proof.
  unfold JS.and. change (JS.ToInt32 15) with (Z.ones 4).
  rewrite Z.land_ones by lia. apply Z.mod_pos_bound. reflexivity.
Qed.

Lemma toHex_shape w : String.length (toHex w) = 8%nat /\ allLowerHex (toHex w) = true.
Proof.
  unfold toHex. cbn [fold_left].
  repeat rewrite string_length_app. repeat rewrite allLowerHex_app.
  repeat match goal with
         | |- context [JS.toString16 (JS.and ?x 15)] =>
             let L := fresh "L" in let A := fresh "A" in
             destruct (toString16_shape (JS.and x 15) (nibble_range x)) as [L A];
             rewrite L, A; clear L A
         end.
  split; reflexivity.
Qed.

Lemma hexState_shape st :
  String.length (hexState st) = 40%nat /\ allLowerHex (hexState st) = true.
Proof.
  unfold hexState. repeat rewrite string_length_app. repeat rewrite allLowerHex_app.
  destruct (toHex_shape (h0 st)) as [-> ->]. destruct (toHex_shape (h1 st)) as [-> ->].
  destruct (toHex_shape (h2 st)) as [-> ->]. destruct (toHex_shape (h3 st)) as [-> ->].
  destruct (toHex_shape (h4 st)) as [-> ->]. split; reflexivity.
Qed.

End Shape.

(** C7 (output shape).  Whatever the input bytes and however they are cut
    into chunks, the string [digest] returns has exactly 40 characters, each
    one of [0-9a-f]. *)
Theorem digest_shape (sync : bool) (shared : list Z) (cs : list chunk) :
  let hex := fst (digest (updates cs (createJs sync shared))) in
  String.length hex = 40%nat /\ allLowerHex hex = true.
Proof. cbv zeta. unfold digest. cbn [fst]. apply hexState_shape. Qed.

(** ** Only the low eight bits of an element are hashed *)

Section Masking.



End Masking.



(** ** Writing whole words *)

Section WriteWord.

Lemma wfBlock_insert b i w : wfBlock b -> 0 <= w < 4294967296 -> wfBlock (<[i := w]> b).
Proof.
  intros [Hl Hb] Hw. split; [rewrite length_insert; exact Hl|].
  apply Forall_insert; [exact Hb | exact Hw].
Qed.

Lemma store_at b o s w x st :
  wfBlock b -> (o <= 15)%nat -> s = 24 \/ s = 16 \/ s = 8 \/ s = 0 ->
  0 <= w < 4294967296 -> w mod 2 ^ (s + 8) = 0 ->
  store x (withBlock (<[o := w]> b) o s st)
  = withBlock (<[o := w + x mod 256 * 2 ^ s]> b)
      (if s =? 0 then S o else o) (if s =? 0 then 24 else s - 8) st.
Proof.
  intros Hb Ho Hs Hw Hz.
  assert (Hl : (o < length b)%nat) by (destruct Hb; lia).
  rewrite store_byte.
  - unfold withBlock; fields.
    rewrite get_insert_eq, list_insert_insert_eq by exact Hl. reflexivity.
  - apply wfBlock_insert; assumption.
  - exact Hs.
  - unfold withBlock; fields. rewrite get_insert_eq by exact Hl. exact Hz.
Qed.

Lemma write_at b o s w x st :
  wfBlock b -> (o <= 15)%nat -> s = 24 \/ s = 16 \/ s = 8 ->
  0 <= w < 4294967296 -> w mod 2 ^ (s + 8) = 0 ->
  write x (withBlock (<[o := w]> b) o s st)
  = withBlock (<[o := w + x mod 256 * 2 ^ s]> b) o (s - 8) st.
Proof.
  intros Hb Ho Hs Hw Hz.
  assert (E := store_at b o s w x st Hb Ho ltac:(tauto) Hw Hz).
  destruct (Z.eqb_spec s 0) as [H0 | H0]; [lia|].
  rewrite write_nowrap; [exact E|]. rewrite E. unfold withBlock; fields. lia.
Qed.

Lemma write_at_last b o w x st :
  wfBlock b -> (o <= 15)%nat -> 0 <= w < 4294967296 -> w mod 2 ^ 8 = 0 ->
  write x (withBlock (<[o := w]> b) o 0 st)
  = if (S o =? 16)%nat
    then processBlock (withBlock (<[o := w + x mod 256]> b) (S o) 24 st)
    else withBlock (<[o := w + x mod 256]> b) (S o) 24 st.
Proof.
  intros Hb Ho Hw Hz.
  assert (E := store_at b o 0 w x st Hb Ho ltac:(tauto) Hw Hz).
  change (2 ^ 0) with 1 in E. rewrite Z.mul_1_r in E. simpl Z.eqb in E. cbv iota in E.
  unfold write. rewrite E. reflexivity.
Qed.

(** Four writes from a word boundary into a zero word. *)
Lemma write_word x0 x1 x2 x3 st :
  wfBlock (block st) -> (offset st <= 15)%nat -> shift st = 24 ->
  get (block st) (offset st) = 0 ->
  writeAll [x0; x1; x2; x3] st
  = if (S (offset st) =? 16)%nat
    then processBlock (withBlock (<[offset st := bigEndian x0 x1 x2 x3]> (block st))
                                 (S (offset st)) 24 st)
    else withBlock (<[offset st := bigEndian x0 x1 x2 x3]> (block st))
                   (S (offset st)) 24 st.
Proof.
  intros Hb Ho Hs Hz.
  assert (Hl : (offset st < length (block st))%nat) by (destruct Hb; lia).
  assert (E : st = withBlock (<[offset st := 0]> (block st)) (offset st) 24 st).
  { unfold withBlock. rewrite <- Hs. rewrite list_insert_id; [destruct st; reflexivity|].
    unfold get in Hz. destruct (block st !! offset st) as [v|] eqn:Ev.
    - simpl in Hz. rewrite Hz. reflexivity.
    - apply lookup_ge_None in Ev. lia. }
  assert (H0 : 0 <= x0 mod 256 < 256) by (apply Z.mod_pos_bound; lia).
  assert (H1 : 0 <= x1 mod 256 < 256) by (apply Z.mod_pos_bound; lia).
  assert (H2 : 0 <= x2 mod 256 < 256) by (apply Z.mod_pos_bound; lia).
  assert (H3 : 0 <= x3 mod 256 < 256) by (apply Z.mod_pos_bound; lia).
  unfold bigEndian. set (o := offset st) in *. set (b := block st) in *.
  rewrite E at 1. clear E. cbn [writeAll fold_left].
  change (2 ^ 24) with 16777216. change (2 ^ 16) with 65536. change (2 ^ 8) with 256.
  rewrite (write_at b o 24) by
    (try assumption; try tauto; try lia; change (2 ^ (24 + 8)) with 4294967296;
     apply Zmod_0_l).
  change (2 ^ 24) with 16777216. change (24 - 8) with 16.
  rewrite (write_at b o 16) by
    (try assumption; try tauto; try lia; change (2 ^ (16 + 8)) with 16777216;
     Z.div_mod_to_equations; lia).
  change (2 ^ 16) with 65536. change (16 - 8) with 8.
  rewrite (write_at b o 8) by
    (try assumption; try tauto; try lia; change (2 ^ (8 + 8)) with 65536;
     Z.div_mod_to_equations; lia).
  change (2 ^ 8) with 256. change (8 - 8) with 0.
  rewrite (write_at_last b o) by
    (try assumption; try lia; change (2 ^ 8) with 256; Z.div_mod_to_equations; lia).
  rewrite !Z.add_0_l. reflexivity.
Qed.

Lemma bigEndian_range x0 x1 x2 x3 : 0 <= bigEndian x0 x1 x2 x3 < 4294967296.
Proof.
  unfold bigEndian.
  change (2 ^ 24) with 16777216. change (2 ^ 16) with 65536. change (2 ^ 8) with 256.
  pose proof (Z.mod_pos_bound x0 256). pose proof (Z.mod_pos_bound x1 256).
  pose proof (Z.mod_pos_bound x2 256). pose proof (Z.mod_pos_bound x3 256). lia.
Qed.

End WriteWord.

(** ** The two halves of [digest] *)

Section Digest.

Lemma digestLength_writes st :
  digestLength st = writeAll (lengthBytes (totalLength st)) st.
Proof.
  unfold digestLength, lengthBytes. cbv zeta. cbn [fold_left writeAll].
  rewrite !write_totalLength. reflexivity.
Qed.

Lemma zeroFrom_word b o : wfBlock b -> zeroFrom b o 24 -> get b o = 0.
Proof.
  intros Hb [Hz _]. pose proof (wfBlock_get b o Hb) as Hw.
  change (2 ^ (24 + 8)) with 4294967296 in Hz. rewrite Z.mod_small in Hz; assumption.
Qed.

(** From a cursor at word 14 with words 14 and 15 zero, the eight length
    bytes fill both words and the last one triggers [processBlock]. *)
Lemma digestLength_block st :
  wfBlock (block st) -> offset st = 14%nat -> shift st = 24 ->
  get (block st) 14 = 0 -> get (block st) 15 = 0 ->
  digestLength st
  = processBlock
      (withBlock (<[15%nat := lengthLow (totalLength st)]>
                    (<[14%nat := lengthHigh (totalLength st)]> (block st))) 16 24 st).
Proof.
  intros Hb Ho Hs H14 H15. rewrite digestLength_writes. unfold lengthBytes.
  set (q5 := if totalLength st >? 0xffffffffff then _ else _).
  set (q4 := if totalLength st >? 0xffffffff then _ else _).
  change [0; 0; q5; q4; JS.shr (totalLength st) 24; JS.shr (totalLength st) 16;
          JS.shr (totalLength st) 8; JS.shr (totalLength st) 0]
    with ([0; 0; q5; q4] ++ [JS.shr (totalLength st) 24; JS.shr (totalLength st) 16;
                             JS.shr (totalLength st) 8; JS.shr (totalLength st) 0]).
  rewrite writeAll_app.
  rewrite (write_word 0 0 q5 q4 st) by (rewrite ?Ho; try assumption; lia).
  rewrite Ho. cbn [Nat.eqb]. cbv iota.
  rewrite write_word.
  - unfold withBlock; fields. reflexivity.
  - unfold withBlock; fields. apply wfBlock_insert; [exact Hb | apply bigEndian_range].
  - unfold withBlock; fields. lia.
  - reflexivity.
  - unfold withBlock; fields. rewrite get_insert_ne by lia. exact H15.
Qed.

Lemma zeroFrom_later b o s o' s' :
  wfBlock b -> zeroFrom b o s -> (o < o' <= 15)%nat -> zeroFrom b o' s'.
Proof.
  intros Hb [_ Hz] Ho. split.
  - rewrite Hz by lia. apply Zmod_0_l.
  - intros j Hj. apply Hz. lia.
Qed.

(** [digestPad] keeps the invariant, ends at word 14, and leaves zero
    bytes from the byte after 0x80 (or from the start of a new block). *)
Lemma digestPad_spec st :
  tidy st ->
  tidy (write 0x80 st) /\
  tidy (digestPad st) /\ offset (digestPad st) = 14%nat /\ shift (digestPad st) = 24 /\
  zeroFrom (block (digestPad st))
    (if needsExtraBlock (write 0x80 st) then 0%nat else offset (write 0x80 st))
    (if needsExtraBlock (write 0x80 st) then 24 else shift (write 0x80 st)).
Proof.
  intros Ht. pose proof (write_tidy 0x80 st Ht) as Ht1.
  unfold digestPad. cbv zeta. set (st1 := write 128 st) in *.
  destruct Ht1 as (Hwf & (Ho & Hs) & Hz).
  assert (Ht1 : tidy st1) by (split; [exact Hwf | split; [split; assumption | exact Hz]]).
  split; [exact Ht1|].
  assert (EB : forall e, block (setCursor 14 24 e) = block e) by reflexivity.
  assert (EO : forall e, offset (setCursor 14 24 e) = 14%nat) by reflexivity.
  assert (ES : forall e, shift (setCursor 14 24 e) = 24) by reflexivity.
  unfold tidy. rewrite EB, EO, ES. clear EB EO ES.
  assert (V : validCursor 14 24) by (split; [lia | auto]).
  destruct (needsExtraBlock st1) eqn:Hn.
  - pose proof (processBlock_clean st1 Hwf) as Hc.
    pose proof (cleanBlock_zeroFrom _ 0 24 Hc ltac:(lia)) as Z0.
    pose proof (cleanBlock_zeroFrom _ 14 24 Hc ltac:(lia)) as Z14.
    destruct Hc as [Hwf' _]. tauto.
  - unfold needsExtraBlock in Hn. apply orb_false_iff in Hn as [Hn1 Hn2].
    apply Nat.ltb_ge in Hn1. apply andb_false_iff in Hn2.
    assert (Z14 : zeroFrom (block st1) 14 24).
    { destruct (decide (offset st1 = 14%nat)) as [E | E].
      - destruct Hn2 as [Hn2 | Hn2]; [apply Nat.eqb_neq in Hn2; lia|].
        apply Z.ltb_ge in Hn2. assert (shift st1 = 24) as <- by lia.
        rewrite <- E. exact Hz.
      - apply (zeroFrom_later _ (offset st1) (shift st1)); [exact Hwf | exact Hz | lia]. }
    tauto.
Qed.

(** After [digest], the engine is the result of [processBlock] on the
    padded block with the length in words 14 and 15. *)
Lemma digest_final st :
  tidy st ->
  snd (digest st)
  = processBlock
      (withBlock (<[15%nat := lengthLow (totalLength st)]>
                    (<[14%nat := lengthHigh (totalLength st)]> (block (digestPad st))))
                 16 24 (digestPad st)).
Proof.
  intros Ht. destruct (digestPad_spec st Ht) as (_ & (Hwf & _ & Hz) & Ho & Hs & _).
  rewrite Ho, Hs in Hz.
  unfold digest. cbn [snd]. rewrite digestLength_block.
  - unfold digestPad at 1 2. cbv zeta. unfold setCursor; fields.
    destruct (needsExtraBlock _); rewrite ?processBlock_totalLength, write_totalLength;
      reflexivity.
  - exact Hwf.
  - exact Ho.
  - exact Hs.
  - apply zeroFrom_word; assumption.
  - apply Hz. lia.
Qed.

Lemma digest_fst st : fst (digest st) = hexState (snd (digest st)).
Proof. unfold digest. cbn [fst snd]. reflexivity. Qed.

Lemma digest_clean st : tidy st -> cleanBlock (block (snd (digest st))).
Proof.
  intros Ht. rewrite digest_final by exact Ht.
  destruct (digestPad_spec st Ht) as (_ & (Hwf & _) & _).
  apply processBlock_clean. unfold withBlock; fields.
  repeat apply wfBlock_insert; try exact Hwf; apply bigEndian_range.
Qed.

End Digest.

(** ** Padding *)

Lemma needsExtraBlock_iff st :
  needsExtraBlock st = true
  <-> ((14 < offset st)%nat \/ (offset st = 14%nat /\ shift st < 24)).
Proof.
  unfold needsExtraBlock.
  rewrite orb_true_iff, andb_true_iff, Nat.ltb_lt, Nat.eqb_eq, Z.ltb_lt. reflexivity.
Qed.

(** C4.  In [digest], once the 0x80 byte has gone through [write]: if the
    cursor is past word 14 ([offset > 14]), or in word 14 with a byte of it
    used ([offset = 14] and [shift < 24]), exactly one more block is
    processed, namely the block as it stands, every byte of which from the
    cursor on is zero, and the new block is zero throughout; otherwise no
    block is processed and the block is kept, zero from the byte after 0x80
    to its end.  In both cases the cursor then stands at word 14, and words
    14 and 15 are zero. *)
Theorem padding_zero (sync : bool) (shared : list Z) (cs : list chunk) :
  cleanBlock shared ->
  let st := updates cs (createJs sync shared) in
  let st1 := write 0x80 st in
  let st2 := digestPad st in
  ((14 < offset st1)%nat \/ (offset st1 = 14%nat /\ shift st1 < 24) ->
   compressed st2 = compressed st1 ++ [take 16 (block st1)] /\
   chaining st2 = chaining (processBlock st1) /\
   zeroFrom (block st1) (offset st1) (shift st1) /\
   zeroFrom (block st2) 0 24) /\
  (~ ((14 < offset st1)%nat \/ (offset st1 = 14%nat /\ shift st1 < 24)) ->
   compressed st2 = compressed st1 /\
   chaining st2 = chaining st1 /\
   block st2 = block st1 /\
   zeroFrom (block st2) (offset st1) (shift st1)) /\
  offset st2 = 14%nat /\ shift st2 = 24 /\
  get (block st2) 14 = 0 /\ get (block st2) 15 = 0.
Proof.
  intros Hs. cbv zeta.
  pose proof (updates_tidy cs _ (createJs_tidy sync shared Hs)) as Ht.
  destruct (digestPad_spec _ Ht) as ((_ & _ & Hz1) & (Hwf & _ & Hz2) & Ho & Hsh & Hz).
  rewrite Ho, Hsh in Hz2.
  assert (EC : forall e, chaining (setCursor 14 24 e) = chaining e) by reflexivity.
  assert (EB : forall e, block (setCursor 14 24 e) = block e) by reflexivity.
  assert (EK : forall e, compressed (setCursor 14 24 e) = compressed e) by reflexivity.
  split; [|split; [|split; [exact Ho | split; [exact Hsh | split]]]].
  - intros G. apply needsExtraBlock_iff in G. rewrite G in Hz.
    revert Hz. unfold digestPad. cbv zeta. rewrite G, EC, EK. intros Hz.
    split; [apply processBlock_compressed|].
    split; [reflexivity|]. split; [exact Hz1 | exact Hz].
  - intros G.
    assert (N : needsExtraBlock (write 128 (updates cs (createJs sync shared))) = false).
    { destruct (needsExtraBlock _) eqn:E; [|reflexivity].
      exfalso. apply G, needsExtraBlock_iff, E. }
    rewrite N in Hz. revert Hz. unfold digestPad. cbv zeta. rewrite N, EC, EB, EK.
    intros Hz. split; [reflexivity|]. split; [reflexivity|]. split; [reflexivity | exact Hz].
  - apply zeroFrom_word; assumption.
  - apply Hz2. lia.
Qed.

Lemma padding_zero_witness :
  cleanBlock usedShared /\
  ((14 < offset (write 0x80 (updates paddingChunks (createJs true usedShared))))%nat
   \/ (offset (write 0x80 (updates paddingChunks (createJs true usedShared))) = 14%nat
       /\ shift (write 0x80 (updates paddingChunks (createJs true usedShared))) < 24)) /\
  compressed (digestPad (updates paddingChunks (createJs true usedShared)))
  = compressed (write 0x80 (updates paddingChunks (createJs true usedShared)))
    ++ [take 16 (block (write 0x80 (updates paddingChunks (createJs true usedShared))))] /\
  chaining (digestPad (updates paddingChunks (createJs true usedShared)))
  = chaining (processBlock (write 0x80 (updates paddingChunks (createJs true usedShared)))) /\
  zeroFrom (block (write 0x80 (updates paddingChunks (createJs true usedShared))))
           (offset (write 0x80 (updates paddingChunks (createJs true usedShared))))
           (shift (write 0x80 (updates paddingChunks (createJs true usedShared)))) /\
  zeroFrom (block (digestPad (updates paddingChunks (createJs true usedShared)))) 0 24 /\
  offset (digestPad (updates paddingChunks (createJs true usedShared))) = 14%nat /\
  shift (digestPad (updates paddingChunks (createJs true usedShared))) = 24 /\
  get (block (digestPad (updates paddingChunks (createJs true usedShared)))) 14 = 0 /\
  get (block (digestPad (updates paddingChunks (createJs true usedShared)))) 15 = 0.
Proof.
  assert (H : cleanBlock usedShared) by (apply (bool_decide_unpack _); vm_compute; exact I).
  assert (G : (14 < offset (write 0x80 (updates paddingChunks (createJs true usedShared))))%nat
              \/ (offset (write 0x80 (updates paddingChunks (createJs true usedShared))) = 14%nat
                  /\ shift (write 0x80 (updates paddingChunks (createJs true usedShared))) < 24))
    by (right; split; vm_compute; reflexivity).
  destruct (padding_zero true usedShared paddingChunks H) as (E & _ & Ho & Hs & H14 & H15).
  destruct (E G) as (E1 & E2 & E3 & E4).
  repeat (split; [assumption|]). assumption.
Defined.

(** ** The length field *)

Section LengthField.

Lemma lengthLow_mod len : lengthLow len = len mod 4294967296.
Proof.
  unfold lengthLow, bigEndian, JS.shr.
  change (24 mod 32) with 24. change (16 mod 32) with 16.
  change (8 mod 32) with 8. change (0 mod 32) with 0.
  rewrite !Z.shiftr_div_pow2 by lia.
  pose proof (ToUint32_ToInt32 len) as E. unfold JS.ToUint32 in E.
  set (t := JS.ToInt32 len) in *.
  change (2 ^ 24) with 16777216. change (2 ^ 16) with 65536.
  change (2 ^ 8) with 256. change (2 ^ 0) with 1.
  rewrite <- E. rewrite Z.div_1_r.
  assert (E1 : t mod (16777216 * 256)
               = t mod 16777216 + 16777216 * ((t / 16777216) mod 256))
    by (apply Z.rem_mul_r; lia).
  assert (E2 : t mod (65536 * 256) = t mod 65536 + 65536 * ((t / 65536) mod 256))
    by (apply Z.rem_mul_r; lia).
  assert (E3 : t mod (256 * 256) = t mod 256 + 256 * ((t / 256) mod 256))
    by (apply Z.rem_mul_r; lia).
  change (16777216 * 256) with 4294967296 in E1.
  change (65536 * 256) with 16777216 in E2.
  change (256 * 256) with 65536 in E3. lia.
Qed.

(** Word 14 receives bits 32..47 of the length: its two high bytes are the
    literal zeros. *)
Lemma lengthHigh_bits len :
  0 <= len -> lengthHigh len = (len / 4294967296) mod 65536.
Proof.
  intros H. unfold lengthHigh, bigEndian.
  change (2 ^ 24) with 16777216. change (2 ^ 16) with 65536. change (2 ^ 8) with 256.
  change (0 mod 256) with 0.
  assert (E : len / 1099511627776 = len / 4294967296 / 256)
    by (rewrite Z.div_div by lia; reflexivity).
  assert (R : (len / 4294967296) mod (256 * 256)
              = (len / 4294967296) mod 256
                + 256 * ((len / 4294967296 / 256) mod 256))
    by (apply Z.rem_mul_r; lia).
  change (256 * 256) with 65536 in R.
  destruct (Z.gtb_spec len 1099511627775) as [G5 | G5],
           (Z.gtb_spec len 4294967295) as [G4 | G4];
    rewrite ?Z.quot_div_nonneg by lia.
  - rewrite E, R. lia.
  - lia.
  - assert (S5 : len / 4294967296 / 256 = 0).
    { rewrite <- E. apply Z.div_small. lia. }
    rewrite R, S5. change (0 mod 256) with 0. lia.
  - assert (S4 : len / 4294967296 = 0) by (apply Z.div_small; lia).
    rewrite S4. reflexivity.
Qed.

Lemma lengthHigh_small len :
  0 <= len < 281474976710656 -> lengthHigh len = len / 4294967296.
Proof.
  intros H. rewrite lengthHigh_bits by lia. apply Z.mod_small. split.
  - apply Z.div_pos; lia.
  - apply Z.div_lt_upper_bound; lia.
Qed.

Lemma updates_totalLength sync shared cs :
  totalLength (updates cs (createJs sync shared)) = 8 * Z.of_nat (length (bytesOf cs)).
Proof.
  rewrite updates_writeAll. unfold addLength; fields. rewrite writeAll_totalLength.
  change (totalLength (createJs sync shared)) with 0. lia.
Qed.

(** The last block [digest] processes carries the length in words 14, 15. *)
Lemma digest_last st :
  tidy st ->
  exists final,
    last (compressed (snd (digest st))) = Some final /\
    get final 14 = lengthHigh (totalLength st) /\
    get final 15 = lengthLow (totalLength st).
Proof.
  intros Ht. rewrite digest_final by exact Ht.
  destruct (digestPad_spec st Ht) as (_ & ((Hl & _) & _) & _).
  rewrite processBlock_compressed. unfold withBlock; fields.
  eexists. split; [apply last_snoc|].
  rewrite !get_take by lia. split.
  - rewrite get_insert_ne by lia. apply get_insert_eq. lia.
  - apply get_insert_eq. rewrite length_insert. lia.
Qed.

Lemma bytesOf_replicate n l :
  length (bytesOf (replicate n (ChunkArray l))) = (n * length l)%nat.
Proof.
  unfold bytesOf. induction n as [|n IH]; [reflexivity|].
  cbn [replicate map concat chunkData]. rewrite length_app, IH. reflexivity.
Qed.

Lemma hugeInput_bits : 8 * Z.of_nat (length (bytesOf hugeInput)) = 281474976710656.
Proof.
  unfold hugeInput. rewrite bytesOf_replicate, length_replicate.
  rewrite Nat2Z.inj_mul, !Z2Nat.id by lia. reflexivity.
Qed.

End LengthField.

(** C5, as the code has it.  [digest] writes the low-order 48 bits of
    [totalLength] (8 times the number of bytes consumed, below 2^53 so that
    the source's arithmetic is exact) big-endian into words 14 and 15 of the
    last block it processes: bits 32..47 in word 14, whose two high-order
    bytes are literal zeros, and the low-order 32 bits in word 15.  For an
    input shorter than 2^45 bytes this is the whole 64-bit length, high-order
    32 bits in word 14. *)
Theorem length_field (sync : bool) (shared : list Z) (cs : list chunk) :
  cleanBlock shared ->
  8 * Z.of_nat (length (bytesOf cs)) < 9007199254740992 ->
  exists final,
    last (compressed (snd (digest (updates cs (createJs sync shared))))) = Some final /\
    get final 14 = (8 * Z.of_nat (length (bytesOf cs)) / 4294967296) mod 65536 /\
    get final 15 = 8 * Z.of_nat (length (bytesOf cs)) mod 4294967296 /\
    (8 * Z.of_nat (length (bytesOf cs)) < 281474976710656 ->
     get final 14 = 8 * Z.of_nat (length (bytesOf cs)) / 4294967296).
Proof.
  intros Hs Hlen.
  pose proof (updates_tidy cs _ (createJs_tidy sync shared Hs)) as Ht.
  destruct (digest_last _ Ht) as (final & Hlast & H14 & H15).
  rewrite updates_totalLength in H14, H15.
  exists final. split; [exact Hlast|].
  rewrite H14, H15. split; [apply lengthHigh_bits; lia|].
  split; [apply lengthLow_mod|]. intros Hsmall. apply lengthHigh_small. lia.
Qed.

Lemma length_field_witness :
  cleanBlock newBlock /\
  8 * Z.of_nat (length (bytesOf abcChunks)) < 9007199254740992 /\
  exists final,
    last (compressed (snd (digest (updates abcChunks (createJs false newBlock))))) = Some final /\
    get final 14 = (8 * Z.of_nat (length (bytesOf abcChunks)) / 4294967296) mod 65536 /\
    get final 15 = 8 * Z.of_nat (length (bytesOf abcChunks)) mod 4294967296 /\
    (8 * Z.of_nat (length (bytesOf abcChunks)) < 281474976710656 ->
     get final 14 = 8 * Z.of_nat (length (bytesOf abcChunks)) / 4294967296).
Proof.
  assert (H : cleanBlock newBlock) by (apply (bool_decide_unpack _); vm_compute; exact I).
  assert (L : 8 * Z.of_nat (length (bytesOf abcChunks)) < 9007199254740992)
    by (vm_compute; reflexivity).
  split; [exact H | split; [exact L | exact (length_field false newBlock abcChunks H L)]].
Defined.

(** C5 as stated fails for long inputs: after 2^45 bytes the length is 2^48
    bits, whose high-order 32 bits are 0x00010000, and word 14 of the last
    block is 0. *)
Lemma length_field_counterexample :
  exists final,
    last (compressed (snd (digest (updates hugeInput (createJs false newBlock))))) = Some final /\
    get final 14 = 0 /\
    8 * Z.of_nat (length (bytesOf hugeInput)) / 4294967296 = 65536 /\
    get final 14 <> 8 * Z.of_nat (length (bytesOf hugeInput)) / 4294967296.
Proof.
  pose proof (updates_tidy hugeInput _ (createJs_tidy false newBlock newBlock_clean)) as Ht.
  destruct (digest_last _ Ht) as (final & Hlast & H14 & _).
  rewrite updates_totalLength, hugeInput_bits in H14.
  change (lengthHigh 281474976710656) with 0 in H14.
  exists final. rewrite hugeInput_bits, H14.
  change (281474976710656 / 4294967296) with 65536.
  split; [exact Hlast|]. split; [reflexivity|]. split; [reflexivity | lia].
Qed.

(** ** A second [digest] on the same engine *)

Section SecondDigest.

Lemma withBlock_self st :
  wfBlock (block st) -> (offset st <= 15)%nat -> get (block st) (offset st) = 0 ->
  st = withBlock (<[offset st := 0]> (block st)) (offset st) (shift st) st.
Proof.
  intros Hb Ho Hz. unfold withBlock. rewrite list_insert_id; [destruct st; reflexivity|].
  unfold get in Hz. destruct (block st !! offset st) as [v|] eqn:Ev.
  - simpl in Hz. rewrite Hz. reflexivity.
  - apply lookup_ge_None in Ev. destruct Hb. lia.
Qed.

Lemma digestPad_totalLength st : totalLength (digestPad st) = totalLength st.
Proof.
  unfold digestPad. cbv zeta. unfold setCursor; fields.
  destruct (needsExtraBlock _); rewrite ?processBlock_totalLength; apply write_totalLength.
Qed.

(** The engine [digest] leaves behind is at the start of a clean block. *)
Lemma digest_after st :
  tidy st ->
  cleanBlock (block (snd (digest st))) /\ offset (snd (digest st)) = 0%nat /\
  shift (snd (digest st)) = 24 /\ totalLength (snd (digest st)) = totalLength st.
Proof.
  intros Ht. split; [apply digest_clean, Ht|].
  rewrite digest_final by exact Ht.
  rewrite processBlock_offset, processBlock_shift, processBlock_totalLength.
  unfold withBlock; fields. rewrite digestPad_totalLength. auto.
Qed.

(** [digestPad] on an engine at the start of a clean block. *)
Lemma digestPad_fresh st :
  cleanBlock (block st) -> offset st = 0%nat -> shift st = 24 ->
  digestPad st = withBlock (<[0%nat := 0x80000000]> (block st)) 14 24 st.
Proof.
  intros Hc Ho Hs. pose proof (cleanBlock_get _ 0 Hc ltac:(lia)) as H0.
  destruct Hc as [Hb _].
  assert (E : write 0x80 st = withBlock (<[0%nat := 0x80000000]> (block st)) 0 16 st).
  { pose proof (withBlock_self st Hb ltac:(lia) ltac:(rewrite Ho; exact H0)) as W.
    rewrite Ho, Hs in W. rewrite W at 1.
    apply (write_at (block st) 0 24 0 0x80 st); try assumption; try tauto; lia. }
  unfold digestPad. cbv zeta. rewrite E. reflexivity.
Qed.

Lemma digest_fresh st :
  cleanBlock (block st) -> offset st = 0%nat -> shift st = 24 ->
  snd (digest st)
  = processBlock
      (withBlock (<[15%nat := lengthLow (totalLength st)]>
                    (<[14%nat := lengthHigh (totalLength st)]>
                       (<[0%nat := 0x80000000]> (block st)))) 16 24 st).
Proof.
  intros Hc Ho Hs.
  assert (Ht : tidy st).
  { split; [apply Hc|]. rewrite Ho, Hs. split; [split; [lia | auto]|].
    apply cleanBlock_zeroFrom; [exact Hc | lia]. }
  rewrite digest_final by exact Ht. rewrite digestPad_fresh by assumption.
  unfold withBlock. cbn [h0 h1 h2 h3 h4 block offset shift totalLength compressed].
  reflexivity.
Qed.

Lemma digest_pair st : digest st = (hexState (snd (digest st)), snd (digest st)).
Proof. unfold digest. cbv zeta. cbn [snd]. reflexivity. Qed.

End SecondDigest.

(** C9, as the code has it.  A second [digest] call on the same engine
    raises no fault: it processes one more block, made of the 0x80 byte,
    zero bytes and the same length field, on top of the chaining values the
    first call left, and returns their rendering as 40 lowercase hexadecimal
    digits. *)
Theorem second_digest (sync : bool) (shared : list Z) (cs : list chunk) :
  cleanBlock shared ->
  let st1 := snd (digest (updates cs (createJs sync shared))) in
  let len := 8 * Z.of_nat (length (bytesOf cs)) in
  let padded := <[15%nat := lengthLow len]>
                  (<[14%nat := lengthHigh len]> (<[0%nat := 0x80000000]> (block st1))) in
  let st2 := processBlock (withBlock padded 16 24 st1) in
  take 16 padded = (0x80000000 :: replicate 13 0) ++ [lengthHigh len; lengthLow len] /\
  digest st1 = (hexState st2, st2) /\
  String.length (hexState st2) = 40%nat /\ allLowerHex (hexState st2) = true.
Proof.
  intros Hs. cbv zeta.
  pose proof (updates_tidy cs _ (createJs_tidy sync shared Hs)) as Ht.
  destruct (digest_after _ Ht) as (Hc & Ho & Hsh & HL).
  rewrite updates_totalLength in HL.
  split; [|split; [|apply hexState_shape]].
  - rewrite !take_insert_lt by lia. destruct Hc as [_ ->]. reflexivity.
  - rewrite digest_pair. rewrite (digest_fresh _ Hc Ho Hsh), HL. reflexivity.
Qed.

Lemma second_digest_witness :
  cleanBlock newBlock /\
  (let st1 := snd (digest (updates abcChunks (createJs false newBlock))) in
   let len := 8 * Z.of_nat (length (bytesOf abcChunks)) in
   let padded := <[15%nat := lengthLow len]>
                   (<[14%nat := lengthHigh len]> (<[0%nat := 0x80000000]> (block st1))) in
   let st2 := processBlock (withBlock padded 16 24 st1) in
   take 16 padded = (0x80000000 :: replicate 13 0) ++ [lengthHigh len; lengthLow len] /\
   digest st1 = (hexState st2, st2) /\
   String.length (hexState st2) = 40%nat /\ allLowerHex (hexState st2) = true).
Proof.
  assert (H : cleanBlock newBlock) by (apply (bool_decide_unpack _); vm_compute; exact I).
  split; [exact H | exact (second_digest false newBlock abcChunks H)].
Defined.

(** C9 as stated fails: on a fresh engine with no input, the first [digest]
    returns the SHA-1 of the empty message and a second call returns another
    string, with no fault in between. *)
Lemma second_digest_counterexample :
  fst (digest (createJs false newBlock)) = "da39a3ee5e6b4b0d3255bfef95601890afd80709"%string /\
  fst (digest (snd (digest (createJs false newBlock))))
  = "2485e7539b2c97a21e718525bf51d56d1559a0ee"%string /\
  fst (digest (snd (digest (createJs false newBlock)))) <> fst (digest (createJs false newBlock)).
Proof.
  assert (E1 : fst (digest (createJs false newBlock))
               = "da39a3ee5e6b4b0d3255bfef95601890afd80709"%string)
    by (vm_compute; reflexivity).
  assert (E2 : fst (digest (snd (digest (createJs false newBlock))))
               = "2485e7539b2c97a21e718525bf51d56d1559a0ee"%string)
    by (vm_compute; reflexivity).
  split; [exact E1 | split; [exact E2|]]. rewrite E1, E2. discriminate.
Qed.

(** ** Independence of sessions *)

Section Sessions.

Lemma length_extend l b : length (fold_left extend l b) = length b.
Proof.
  revert b. induction l as [|i l IH]; intros b; [reflexivity|].
  simpl. rewrite IH. unfold extend, set. apply length_insert.
Qed.

Lemma take_S_set b i v :
  (i < length b)%nat -> take (S i) (set i v b) = take i b ++ [JS.ToUint32 v].
Proof.
  intros H. unfold set.
  rewrite (take_S_r _ _ (JS.ToUint32 v)) by (apply list_lookup_insert_eq, H).
  rewrite take_insert_ge by lia. reflexivity.
Qed.

Lemma get_take_eq b b' n j :
  take n b = take n b' -> (j < n)%nat -> get b j = get b' j.
Proof.
  intros H Hj. rewrite <- (get_take b n), <- (get_take b' n) by exact Hj.
  rewrite H. reflexivity.
Qed.

(** The extension loop reads words 16..79 only after writing them. *)
Lemma schedule_prefix_ext b b' k :
  length b = 80%nat -> length b' = 80%nat -> take 16 b = take 16 b' -> (k <= 64)%nat ->
  take (16 + k) (fold_left extend (seq 16 k) b)
  = take (16 + k) (fold_left extend (seq 16 k) b').
Proof.
  intros Hl Hl' Ht. induction k as [|k IH]; intros Hk.
  - simpl fold_left. rewrite Nat.add_0_r. exact Ht.
  - rewrite seq_S, !fold_left_app. cbn [fold_left].
    specialize (IH ltac:(lia)).
    pose proof (length_extend (seq 16 k) b) as L.
    pose proof (length_extend (seq 16 k) b') as L'.
    set (w := fold_left extend (seq 16 k) b) in *.
    set (w' := fold_left extend (seq 16 k) b') in *.
    replace (16 + S k)%nat with (S (16 + k)) by lia.
    unfold extend. rewrite !take_S_set by lia. rewrite IH.
    rewrite !(get_take_eq w w' (16 + k)) by (try exact IH; lia). reflexivity.
Qed.

Lemma schedule_ext b b' :
  length b = 80%nat -> length b' = 80%nat -> take 16 b = take 16 b' ->
  schedule b = schedule b'.
Proof.
  intros Hl Hl' Ht. unfold schedule.
  pose proof (schedule_prefix_ext b b' 64 Hl Hl' Ht (le_n _)) as E.
  rewrite !take_ge in E by (rewrite length_extend; lia). exact E.
Qed.

Lemma sameInput_refl st : wfBlock (block st) -> sameInput st st.
Proof. intros H. repeat split; apply H. Qed.

Lemma processBlock_ext st st' : sameInput st st' -> processBlock st = processBlock st'.
Proof.
  intros (Hh & Ho & Hs & Ht & Hc & Hb & [Hl _] & [Hl' _]).
  unfold chaining in Hh. injection Hh as E0 E1 E2 E3 E4.
  unfold processBlock.
  rewrite (schedule_ext _ _ Hl Hl' Hb), E0, E1, E2, E3, E4, Hs, Ht, Hc, Hb.
  reflexivity.
Qed.

Lemma store_ext x st st' : sameInput st st' -> sameInput (store x st) (store x st').
Proof.
  intros (Hh & Ho & Hs & Ht & Hc & Hb & Hw & Hw').
  pose proof (store_wf x st Hw) as W. pose proof (store_wf x st' Hw') as W'.
  unfold sameInput. split; [|split; [|split; [|split; [|split; [|split; [|split]]]]]];
    try assumption.
  - unfold store, chaining in *. destruct (shift st =? 0), (shift st' =? 0); exact Hh.
  - unfold store. rewrite Hs, Ho. destruct (shift st' =? 0); reflexivity.
  - unfold store. rewrite Hs. destruct (shift st' =? 0); reflexivity.
  - rewrite !store_totalLength. exact Ht.
  - rewrite !store_compressed. exact Hc.
  - assert (B : forall e, block (store x e)
                          = set (offset e)
                              (JS.or (get (block e) (offset e))
                                     (JS.shl (JS.and x 0xff) (shift e))) (block e))
      by (intros e; unfold store; destruct (shift e =? 0); reflexivity).
    rewrite !B, <- Ho, <- Hs. unfold set.
    destruct (Nat.lt_ge_cases (offset st) 16) as [Hlt | Hge].
    + rewrite !take_insert_lt by exact Hlt.
      rewrite (get_take_eq _ _ 16 _ Hb Hlt), Hb. reflexivity.
    + rewrite !take_insert_ge by exact Hge. exact Hb.
Qed.

Lemma write_ext x st st' : sameInput st st' -> sameInput (write x st) (write x st').
Proof.
  intros H. pose proof (store_ext x st st' H) as H'.
  unfold write. destruct H' as (Hh & Ho & Hrest). rewrite <- Ho.
  destruct (offset (store x st) =? 16)%nat.
  - rewrite (processBlock_ext _ _ (conj Hh (conj Ho Hrest))).
    apply sameInput_refl. apply processBlock_clean. apply Hrest.
  - exact (conj Hh (conj Ho Hrest)).
Qed.

Lemma writeAll_ext l st st' : sameInput st st' -> sameInput (writeAll l st) (writeAll l st').
Proof.
  revert st st'. induction l as [|x l IH]; intros st st' H; [exact H|].
  simpl. apply IH, write_ext, H.
Qed.

Lemma addLength_ext n st st' : sameInput st st' -> sameInput (addLength n st) (addLength n st').
Proof.
  intros (Hh & Ho & Hs & Ht & Hc & Hb & Hw & Hw').
  unfold sameInput, addLength, chaining in *; fields. rewrite Ht. tauto.
Qed.

Lemma updates_ext cs st st' : sameInput st st' -> sameInput (updates cs st) (updates cs st').
Proof. intros H. rewrite !updates_writeAll. apply addLength_ext, writeAll_ext, H. Qed.

Lemma setCursor_ext o s st st' :
  sameInput st st' -> sameInput (setCursor o s st) (setCursor o s st').
Proof.
  intros (Hh & Ho & Hs & Ht & Hc & Hb & Hw & Hw').
  unfold sameInput, setCursor, chaining in *; fields. tauto.
Qed.

Lemma digestPad_ext st st' : sameInput st st' -> sameInput (digestPad st) (digestPad st').
Proof.
  intros H. pose proof (write_ext 0x80 st st' H) as H1.
  unfold digestPad. cbv zeta. apply setCursor_ext.
  assert (N : needsExtraBlock (write 128 st) = needsExtraBlock (write 128 st')).
  { destruct H1 as (_ & Ho & Hs & _). unfold needsExtraBlock. rewrite Ho, Hs. reflexivity. }
  rewrite <- N. destruct (needsExtraBlock (write 128 st)); [|exact H1].
  rewrite (processBlock_ext _ _ H1). apply sameInput_refl, processBlock_clean, H1.
Qed.

Lemma digestLength_ext st st' :
  sameInput st st' -> sameInput (digestLength st) (digestLength st').
Proof.
  intros H. rewrite !digestLength_writes.
  assert (E : totalLength st = totalLength st') by apply H.
  rewrite E. apply writeAll_ext, H.
Qed.

Lemma hexState_ext st st' : chaining st = chaining st' -> hexState st = hexState st'.
Proof.
  intros Hh. unfold chaining in Hh. injection Hh as E0 E1 E2 E3 E4.
  unfold hexState. rewrite E0, E1, E2, E3, E4. reflexivity.
Qed.

Lemma digest_ext st st' : sameInput st st' -> fst (digest st) = fst (digest st').
Proof.
  intros H. apply digestPad_ext, digestLength_ext in H.
  unfold digest. cbv zeta. cbn [fst]. apply hexState_ext, H.
Qed.

Lemma createJs_ext sync sync' shared shared' :
  cleanBlock shared -> cleanBlock shared' ->
  sameInput (createJs sync shared) (createJs sync' shared').
Proof.
  intros Hc Hc'.
  assert (C : cleanBlock (block (createJs sync shared)))
    by (destruct sync; [exact Hc | exact newBlock_clean]).
  assert (C' : cleanBlock (block (createJs sync' shared')))
    by (destruct sync'; [exact Hc' | exact newBlock_clean]).
  destruct C as [W T], C' as [W' T'].
  unfold sameInput. rewrite T, T'. repeat split; try apply W; try apply W'.
Qed.

Lemma session_fst sync cs shared :
  fst (session sync cs shared) = fst (digest (updates cs (createJs sync shared))).
Proof. unfold session. destruct (digest _) as [hex st]. reflexivity. Qed.

Lemma session_snd sync cs shared :
  snd (session sync cs shared)
  = if sync then block (snd (digest (updates cs (createJs sync shared)))) else shared.
Proof. unfold session. destruct (digest _) as [hex st]. reflexivity. Qed.

Lemma session_clean sync cs shared : cleanBlock shared -> cleanBlock (snd (session sync cs shared)).
Proof.
  intros H. rewrite session_snd. destruct sync; [|exact H].
  apply digest_clean, updates_tidy, createJs_tidy, H.
Qed.

Lemma sessions_clean history shared : cleanBlock shared -> cleanBlock (sessions history shared).
Proof.
  revert shared. induction history as [|[sync cs] history IH]; intros shared H; [exact H|].
  unfold sessions. cbn [fold_left fst snd]. apply IH, session_clean, H.
Qed.

(** The digest of a session does not depend on which clean array it
    starts from, nor on [sync]. *)
Lemma session_digest sync sync' cs shared shared' :
  cleanBlock shared -> cleanBlock shared' ->
  fst (session sync cs shared) = fst (session sync' cs shared').
Proof.
  intros H H'. rewrite !session_fst.
  apply digest_ext, updates_ext, createJs_ext; assumption.
Qed.

Lemma sha1_session buffer shared : sha1 buffer shared = session true [ChunkString buffer] shared.
Proof.
  unfold sha1, session, updates. cbv zeta. cbn [fold_left].
  destruct (digest _) as [hex st]. reflexivity.
Qed.

End Sessions.

(** C8 (determinism across instances).  Whatever sessions were completed
    before (with or without the shared array), two engines fed the same
    chunks return the same digest string: no session leaves anything, in the
    shared array or elsewhere, that changes the digest of a later one. *)
Theorem sessions_independent (history history' : list (bool * list chunk))
        (sync sync' : bool) (cs : list chunk) :
  fst (session sync cs (sessions history newBlock))
  = fst (session sync' cs (sessions history' newBlock)).
Proof.
  apply session_digest; apply sessions_clean, newBlock_clean.
Qed.

(** ** Known answers *)

(** C1.  The one-shot [sha1] over the JavaScript engine returns the three
    known digests, at module start and after any earlier sessions. *)
Theorem known_answers (history : list (bool * list chunk)) :
  fst (sha1 (codeUnits "") (sessions history newBlock))
  = "da39a3ee5e6b4b0d3255bfef95601890afd80709"%string /\
  fst (sha1 (codeUnits "abc") (sessions history newBlock))
  = "a9993e364706816aba3e25717850c26c9cd0d89d"%string /\
  fst (sha1 (codeUnits "The quick brown fox jumps over the lazy dog")
         (sessions history newBlock))
  = "2fd4e1c67a2d28fced849ee1bb76e7391b93eb12"%string.
Proof.
  pose proof (sessions_clean history newBlock newBlock_clean) as H.
  rewrite !sha1_session.
  rewrite !(session_digest true true _ (sessions history newBlock) newBlock H newBlock_clean).
  repeat split; vm_compute; reflexivity.
Qed.

(** ** Inputs around the block boundary

    The digests of 55, 56, 57, 63, 64 and 65 bytes "a", the lengths at which
    the padding changes shape, against independently computed values. *)

Example boundary_digests :
  map (fun n => fst (sha1 (replicate n 97) newBlock)) [55; 56; 57; 63; 64; 65]%nat
  = ["c1c8bbdc22796e28c0e15163d20899b65621d65a";
     "c2db330f6083854c99d4b5bfb6e8f29f201be699";
     "f08f24908d682555111be7ff6f004e78283d989a";
     "03f09f5b158a7a8cdad920bddc29b81c18a551f5";
     "0098ba824b5c16427bd7a1122a5a442a25ec644d";
     "11655326c708d70319be2610e8a57d9a5b959d3b"]%string.
Proof. vm_compute. reflexivity. Qed.
(** ** Zero bytes only move the cursor *)

Section ZeroBytes.

Lemma cursorBytes_range st :
  validCursor (offset st) (shift st) -> 0 <= cursorBytes st <= 63.
Proof.
  intros [Ho Hs]. unfold cursorBytes.
  destruct Hs as [-> | [-> | [-> | ->]]]; Z.div_mod_to_equations; lia.
Qed.

Lemma seek_cursorBytes st : validCursor (offset st) (shift st) -> seek (cursorBytes st) st = st.
Proof.
  intros [Ho Hs]. unfold seek, cursorBytes, setCursor.
  assert (E : Z.to_nat ((Z.of_nat (offset st) * 4 + (3 - shift st / 8)) / 4) = offset st
              /\ 24 - 8 * ((Z.of_nat (offset st) * 4 + (3 - shift st / 8)) mod 4) = shift st).
  { destruct Hs as [Hs | [Hs | [Hs | Hs]]]; rewrite Hs; split;
      Z.div_mod_to_equations; lia. }
  destruct E as [-> ->]. destruct st; reflexivity.
Qed.

Lemma cursorBytes_seek p st : 0 <= p <= 63 -> cursorBytes (seek p st) = p.
Proof.
  intros Hp. unfold cursorBytes, seek, setCursor; fields.
  rewrite Z2Nat.id by (Z.div_mod_to_equations; lia).
  Z.div_mod_to_equations; lia.
Qed.

Lemma seek_seek p q st : seek q (seek p st) = seek q st.
Proof. reflexivity. Qed.

Lemma seek_tidy p st :
  tidy st -> cursorBytes st <= p <= 63 -> tidy (seek p st).
Proof.
  intros (Hwf & (Ho & Hs) & (Hz & Hrest)) Hp.
  pose proof (cursorBytes_range st (conj Ho Hs)) as Hr.
  unfold tidy, seek, setCursor; fields.
  split; [exact Hwf|].
  assert (Hq : (Z.to_nat (p / 4) <= 15)%nat) by (Z.div_mod_to_equations; lia).
  split; [split; [exact Hq | Z.div_mod_to_equations; lia]|].
  unfold cursorBytes in Hp.
  destruct (decide (Z.to_nat (p / 4) = offset st)) as [E | E].
  - rewrite E. split; [|exact Hrest].
    assert (Hle : 24 - 8 * (p mod 4) <= shift st).
    { destruct Hs as [Hs | [Hs | [Hs | Hs]]]; rewrite Hs in Hp |- *;
        Z.div_mod_to_equations; lia. }
    pose proof (wfBlock_get _ (offset st) Hwf) as Hw.
    revert Hz Hle.
    assert (Hp4 : p mod 4 = 0 \/ p mod 4 = 1 \/ p mod 4 = 2 \/ p mod 4 = 3)
      by (Z.div_mod_to_equations; lia).
    destruct Hs as [Hs | [Hs | [Hs | Hs]]]; rewrite Hs;
      destruct Hp4 as [Hp4 | [Hp4 | [Hp4 | Hp4]]]; rewrite Hp4;
      simpl Z.add; simpl Z.sub; simpl Z.mul; intros Hz Hle; try lia;
      cbn in Hz |- *; Z.div_mod_to_equations; lia.
  - assert (Hgt : (offset st < Z.to_nat (p / 4))%nat).
    { destruct Hs as [Hs | [Hs | [Hs | Hs]]]; rewrite Hs in Hp;
        Z.div_mod_to_equations; lia. }
    split; [rewrite Hrest by lia; apply Zmod_0_l|].
    intros j Hj. apply Hrest. lia.
Qed.

Lemma write_zero st :
  tidy st ->
  store 0 st
  = withBlock (block st) (if shift st =? 0 then S (offset st) else offset st)
      (if shift st =? 0 then 24 else shift st - 8) st.
Proof.
  intros (Hwf & (Ho & Hs) & (Hz & _)).
  rewrite store_byte by assumption.
  change (0 mod 256) with 0. rewrite Z.mul_0_l, Z.add_0_r.
  rewrite list_insert_id; [reflexivity|].
  unfold get. destruct (block st !! offset st) as [v|] eqn:E; [reflexivity|].
  apply lookup_ge_None in E. destruct Hwf. lia.
Qed.

Lemma write_zero_seek st :
  tidy st -> cursorBytes st < 63 -> write 0 st = seek (cursorBytes st + 1) st.
Proof.
  intros Ht Hp. pose proof (write_zero st Ht) as E.
  destruct Ht as (Hwf & (Ho & Hs) & _). unfold cursorBytes in *.
  assert (C : (if shift st =? 0 then S (offset st) else offset st)
              = Z.to_nat ((Z.of_nat (offset st) * 4 + (3 - shift st / 8) + 1) / 4)
              /\ (if shift st =? 0 then 24 else shift st - 8)
                 = 24 - 8 * ((Z.of_nat (offset st) * 4 + (3 - shift st / 8) + 1) mod 4)).
  { destruct Hs as [Hs | [Hs | [Hs | Hs]]]; rewrite Hs; simpl Z.eqb; cbv iota; split;
      Z.div_mod_to_equations; lia. }
  destruct C as [C1 C2]. rewrite C1, C2 in E.
  rewrite write_nowrap.
  - rewrite E. unfold seek, setCursor, withBlock. reflexivity.
  - rewrite E. unfold withBlock; fields.
    destruct Hs as [Hs | [Hs | [Hs | Hs]]]; rewrite Hs in Hp |- *;
      Z.div_mod_to_equations; lia.
Qed.

Lemma zeros_seek k st :
  tidy st -> cursorBytes st + Z.of_nat k <= 63 ->
  writeAll (replicate k 0) st = seek (cursorBytes st + Z.of_nat k) st.
Proof.
  revert st. induction k as [|k IH]; intros st Ht Hk.
  - simpl. rewrite Z.add_0_r. symmetry. apply seek_cursorBytes, Ht.
  - pose proof (cursorBytes_range st (proj1 (proj2 Ht))) as Hr.
    cbn [replicate writeAll fold_left].
    rewrite write_zero_seek by (try exact Ht; lia).
    change (fold_left (fun st x => write x st) (replicate k 0) ?s)
      with (writeAll (replicate k 0) s).
    rewrite IH.
    + rewrite cursorBytes_seek by lia. rewrite seek_seek. f_equal. lia.
    + apply seek_tidy; [exact Ht | lia].
    + rewrite cursorBytes_seek by lia. lia.
Qed.

(** Zero bytes up to the end of the block: the block is processed as it
    stands. *)
Lemma zeros_wrap st :
  tidy st ->
  writeAll (replicate (Z.to_nat (64 - cursorBytes st)) 0) st
  = processBlock (withBlock (block st) 16 24 st).
Proof.
  intros Ht. pose proof (cursorBytes_range st (proj1 (proj2 Ht))) as Hr.
  replace (Z.to_nat (64 - cursorBytes st)) with (S (Z.to_nat (63 - cursorBytes st))) by lia.
  rewrite replicate_S_end, writeAll_app, zeros_seek by (try exact Ht; lia).
  replace (cursorBytes st + Z.of_nat (Z.to_nat (63 - cursorBytes st))) with 63 by lia.
  assert (T : tidy (seek 63 st)) by (apply seek_tidy; [exact Ht | lia]).
  cbn [writeAll fold_left]. rewrite write_wrap.
  - rewrite (write_zero _ T). reflexivity.
  - rewrite (write_zero _ T). reflexivity.
Qed.

End ZeroBytes.

(** ** [digest] as a sequence of writes *)

Section DigestStream.

Lemma needsExtraBlock_cursor st :
  validCursor (offset st) (shift st) ->
  needsExtraBlock st = (56 <? cursorBytes st).
Proof.
  intros [Ho Hs]. unfold needsExtraBlock, cursorBytes.
  destruct (Z.ltb_spec 56 (Z.of_nat (offset st) * 4 + (3 - shift st / 8))) as [H | H].
  - destruct (Nat.ltb_spec 14 (offset st)); [reflexivity|]. simpl orb.
    destruct (Nat.eqb_spec (offset st) 14) as [E | E];
      [|exfalso; destruct Hs as [Hs | [Hs | [Hs | Hs]]]; rewrite Hs in H;
        Z.div_mod_to_equations; lia].
    simpl andb. apply Z.ltb_lt.
    destruct Hs as [Hs | [Hs | [Hs | Hs]]]; rewrite Hs in H |- *; rewrite ?E in H;
      try lia; exfalso; Z.div_mod_to_equations; lia.
  - destruct (Nat.ltb_spec 14 (offset st)) as [L | L].
    + exfalso. destruct Hs as [Hs | [Hs | [Hs | Hs]]]; rewrite Hs in H;
        Z.div_mod_to_equations; lia.
    + simpl orb. destruct (Nat.eqb_spec (offset st) 14) as [E | E]; [|reflexivity].
      simpl andb. apply Z.ltb_ge.
      destruct Hs as [Hs | [Hs | [Hs | Hs]]]; rewrite Hs in H |- *; rewrite ?E in H;
        try lia; exfalso; Z.div_mod_to_equations; lia.
Qed.

Lemma processBlock_any_cursor o s st :
  setCursor 14 24 (processBlock (withBlock (block st) o s st))
  = setCursor 14 24 (processBlock st).
Proof.
  unfold processBlock, withBlock; fields.
  destruct (rounds _ _) as [[[[a b] c] d] e]. unfold setCursor; fields. reflexivity.
Qed.

(** The padding of [digest] is what writing a 0x80 byte and zero bytes
    would do. *)
Lemma digestPad_writes st :
  tidy st ->
  digestPad st
  = writeAll (0x80 :: replicate (zerosAfter (cursorBytes (write 0x80 st))) 0) st.
Proof.
  intros Ht. pose proof (write_tidy 0x80 st Ht) as T1.
  unfold digestPad. cbv zeta. cbn [writeAll fold_left].
  change (fold_left (fun st x => write x st) ?l ?s) with (writeAll l s).
  set (st1 := write 128 st) in *.
  pose proof (cursorBytes_range st1 (proj1 (proj2 T1))) as Hr.
  rewrite (needsExtraBlock_cursor st1 (proj1 (proj2 T1))). unfold zerosAfter.
  destruct (Z.ltb_spec 56 (cursorBytes st1)) as [H | H].
  - destruct (Z.leb_spec (cursorBytes st1) 56) as [H' | _]; [lia|].
    replace (Z.to_nat (120 - cursorBytes st1))
      with (Z.to_nat (64 - cursorBytes st1) + 56)%nat by lia.
    rewrite replicate_add, writeAll_app, zeros_wrap by exact T1.
    assert (T2 : tidy (processBlock (withBlock (block st1) 16 24 st1))).
    { apply processBlock_tidy; unfold withBlock; fields; [apply T1 | auto]. }
    rewrite zeros_seek.
    + unfold cursorBytes at 1. rewrite processBlock_offset, processBlock_shift.
      unfold withBlock at 2; fields.
      change (Z.of_nat 0 * 4 + (3 - 24 / 8) + Z.of_nat 56) with 56.
      change (seek 56 ?s) with (setCursor 14 24 s).
      symmetry. apply processBlock_any_cursor.
    + exact T2.
    + unfold cursorBytes. rewrite processBlock_offset, processBlock_shift.
      unfold withBlock; fields.
      change (Z.of_nat 0 * 4 + (3 - 24 / 8) + Z.of_nat 56) with 56. lia.
  - destruct (Z.leb_spec (cursorBytes st1) 56) as [_ | H']; [|lia].
    rewrite zeros_seek by (try exact T1; lia).
    replace (cursorBytes st1 + Z.of_nat (Z.to_nat (56 - cursorBytes st1))) with 56 by lia.
    reflexivity.
Qed.

Lemma digest_writes st :
  tidy st ->
  snd (digest st)
  = writeAll ((0x80 :: replicate (zerosAfter (cursorBytes (write 0x80 st))) 0)
                ++ lengthBytes (totalLength st)) st.
Proof.
  intros Ht. unfold digest. cbv zeta. cbn [snd].
  rewrite digestLength_writes, digestPad_totalLength, digestPad_writes by exact Ht.
  rewrite writeAll_app. reflexivity.
Qed.

Lemma writeAll_position l st :
  validCursor (offset st) (shift st) ->
  cursorBytes (writeAll l st) = (cursorBytes st + Z.of_nat (length l)) mod 64 /\
  Z.of_nat (length (compressed (writeAll l st)))
  = Z.of_nat (length (compressed st)) + (cursorBytes st + Z.of_nat (length l)) / 64.
Proof.
  intros Hv. destruct (writeAll_cursor l st Hv) as (Hv' & E). cbv zeta in Hv', E.
  pose proof (cursorBytes_range _ Hv) as R. pose proof (cursorBytes_range _ Hv') as R'.
  split; Z.div_mod_to_equations; lia.
Qed.

Lemma zerosAfter_length n :
  zerosAfter ((Z.of_nat n + 1) mod 64) = Z.to_nat ((55 - Z.of_nat n) mod 64).
Proof.
  unfold zerosAfter. f_equal.
  destruct (Z.leb_spec ((Z.of_nat n + 1) mod 64) 56); Z.div_mod_to_equations; lia.
Qed.

(** On a fresh engine: all the bytes that go through [write] up to the end
    of [digest]. *)
Lemma digest_stream sync shared cs :
  cleanBlock shared ->
  snd (digest (updates cs (createJs sync shared)))
  = addLength (8 * Z.of_nat (length (bytesOf cs)))
      (writeAll (bytesOf cs
                 ++ (0x80 :: replicate (Z.to_nat ((55 - Z.of_nat (length (bytesOf cs))) mod 64)) 0)
                 ++ lengthBytes (8 * Z.of_nat (length (bytesOf cs))))
                (createJs sync shared)).
Proof.
  intros Hs. pose proof (createJs_tidy sync shared Hs) as T0.
  pose proof (updates_tidy cs _ T0) as Ht.
  rewrite digest_writes by exact Ht. rewrite updates_totalLength.
  rewrite updates_writeAll. rewrite write_addLength.
  assert (P : cursorBytes (addLength (Z.of_nat (length (bytesOf cs)) * 8)
                             (write 128 (writeAll (bytesOf cs) (createJs sync shared))))
              = (Z.of_nat (length (bytesOf cs)) + 1) mod 64).
  { change (cursorBytes (addLength ?n ?s)) with (cursorBytes s).
    change (write 128 (writeAll (bytesOf cs) (createJs sync shared)))
      with (writeAll [128] (writeAll (bytesOf cs) (createJs sync shared))).
    rewrite <- writeAll_app.
    rewrite (proj1 (writeAll_position _ _ (proj1 (proj2 T0)))).
    rewrite length_app. simpl length.
    change (cursorBytes (createJs sync shared)) with 0. f_equal. lia. }
  rewrite P, zerosAfter_length, writeAll_addLength, writeAll_app.
  f_equal; [lia|]. rewrite !writeAll_app. reflexivity.
Qed.

End DigestStream.

(** ** Whole words and whole blocks *)

Section Aligned.

Lemma words_cons4 x0 x1 x2 x3 rest :
  Fips.words (lowBytes (x0 :: x1 :: x2 :: x3 :: rest))
  = bigEndian x0 x1 x2 x3 :: Fips.words (lowBytes rest).
Proof. reflexivity. Qed.

Lemma words_length k bs :
  length bs = (4 * k)%nat -> length (Fips.words bs) = k.
Proof.
  revert bs. induction k as [|k IH]; intros bs H.
  - destruct bs; [reflexivity | simpl in H; lia].
  - destruct bs as [|x0 [|x1 [|x2 [|x3 rest]]]]; simpl in H; try lia.
    cbn [Fips.words length]. rewrite IH by lia. reflexivity.
Qed.

Lemma words_range k bs :
  length bs = (4 * k)%nat ->
  Forall (fun w => 0 <= w < 4294967296) (Fips.words (lowBytes bs)).
Proof.
  revert bs. induction k as [|k IH]; intros bs H.
  - destruct bs; [constructor | simpl in H; lia].
  - destruct bs as [|x0 [|x1 [|x2 [|x3 rest]]]]; simpl in H; try lia.
    rewrite words_cons4. constructor; [apply bigEndian_range | apply IH; lia].
Qed.

(** [S k] words written from a word boundary into zero words. *)
Lemma write_words k bs st :
  length bs = (4 * S k)%nat ->
  wfBlock (block st) -> shift st = 24 -> (offset st + S k <= 16)%nat ->
  (forall j, (offset st <= j < 16)%nat -> get (block st) j = 0) ->
  writeAll bs st
  = if (offset st + S k =? 16)%nat
    then processBlock
           (withBlock (take (offset st) (block st) ++ Fips.words (lowBytes bs)
                         ++ drop (offset st + S k) (block st))
                      (offset st + S k) 24 st)
    else withBlock (take (offset st) (block st) ++ Fips.words (lowBytes bs)
                      ++ drop (offset st + S k) (block st))
                   (offset st + S k) 24 st.
Proof.
  revert bs st. induction k as [|k IH]; intros bs st Hlen Hwf Hs Ho Hz.
  - destruct bs as [|x0 [|x1 [|x2 [|x3 [|x4 rest]]]]]; simpl in Hlen; try lia.
    rewrite write_word by (try assumption; try lia; apply Hz; lia).
    rewrite words_cons4. cbn [lowBytes map Fips.words].
    assert (Hl : (offset st < length (block st))%nat) by (destruct Hwf; lia).
    rewrite (insert_take_drop _ _ _ Hl).
    replace (offset st + 1)%nat with (S (offset st)) by lia. reflexivity.
  - destruct bs as [|x0 [|x1 [|x2 [|x3 rest]]]]; simpl in Hlen; try lia.
    change (x0 :: x1 :: x2 :: x3 :: rest) with ([x0; x1; x2; x3] ++ rest) at 1.
    rewrite writeAll_app.
    rewrite write_word by (try assumption; try lia; apply Hz; lia).
    destruct (Nat.eqb_spec (S (offset st)) 16) as [E | _]; [lia|].
    assert (Hl : (offset st < length (block st))%nat) by (destruct Hwf; lia).
    rewrite IH.
    + unfold withBlock; fields.
      replace (S (offset st) + S k)%nat with (offset st + S (S k))%nat by lia.
      rewrite (take_S_r _ _ (bigEndian x0 x1 x2 x3))
        by (apply list_lookup_insert_eq, Hl).
      rewrite take_insert_ge, drop_insert_lt by lia.
      rewrite words_cons4, <- app_assoc. cbn [app]. reflexivity.
    + lia.
    + unfold withBlock; fields. apply wfBlock_insert; [exact Hwf | apply bigEndian_range].
    + reflexivity.
    + unfold withBlock; fields. lia.
    + unfold withBlock; fields. intros j Hj. rewrite get_insert_ne by lia. apply Hz. lia.
Qed.

(** Sixty-four bytes from a block boundary: one [processBlock] on their
    sixteen words. *)
Lemma write_block bs st :
  length bs = 64%nat -> atBoundary st ->
  writeAll bs st
  = processBlock (withBlock (Fips.words (lowBytes bs) ++ drop 16 (block st)) 16 24 st).
Proof.
  intros Hlen (Hc & Ho & Hs).
  assert (Hz : forall j, (offset st <= j < 16)%nat -> get (block st) j = 0)
    by (intros j Hj; apply cleanBlock_get; [exact Hc | lia]).
  assert (Hk : (offset st + 16 <= 16)%nat) by lia.
  rewrite (write_words 15 bs st Hlen (proj1 Hc) Hs Hk Hz).
  rewrite Ho. reflexivity.
Qed.

(** The extension loop computes the message schedule of the first sixteen
    words. *)
Lemma schedule_iter b k :
  wfBlock b -> (k <= 64)%nat ->
  take (16 + k) (fold_left extend (seq 16 k) b)
  = Nat.iter k (fun w => w ++ [Spec.scheduled w (length w)]) (take 16 b).
Proof.
  intros Hb. induction k as [|k IH]; intros Hk.
  - rewrite Nat.add_0_r. reflexivity.
  - destruct (schedule_prefix b k Hb ltac:(lia)) as (Hw & _ & _).
    rewrite seq_S, fold_left_app, Nat.iter_succ. cbn [fold_left].
    rewrite <- IH by lia.
    set (w := fold_left extend (seq 16 k) b) in *.
    assert (Hl : (16 + k < length w)%nat) by (destruct Hw; lia).
    replace (16 + S k)%nat with (S (16 + k)) by lia.
    rewrite (take_S_r _ _ (get (extend w (16 + k)) (16 + k))).
    + unfold extend at 1. rewrite take_set_ge by lia.
      rewrite extend_get by (try exact Hw; lia).
      rewrite length_take_le by lia. f_equal. f_equal.
      apply scheduled_ext; [|lia]. intros j Hj. symmetry. apply get_take. exact Hj.
    + unfold get. destruct (extend w (16 + k) !! (16 + k)%nat) as [v|] eqn:E; [reflexivity|].
      apply lookup_ge_None in E. unfold extend, set in E. rewrite length_insert in E. lia.
Qed.

Lemma schedule_expand b : wfBlock b -> schedule b = Fips.expand (take 16 b).
Proof.
  intros Hb. unfold schedule, Fips.expand.
  rewrite <- (schedule_iter b 64 Hb (le_n _)).
  rewrite take_ge; [reflexivity|]. rewrite length_extend. destruct Hb. lia.
Qed.

Lemma processBlock_boundary st :
  wfBlock (block st) -> shift st = 24 -> atBoundary (processBlock st).
Proof.
  intros Hb Hs. split; [apply processBlock_clean, Hb|].
  rewrite processBlock_offset, processBlock_shift. auto.
Qed.

Lemma padded_block_wf bs b :
  length bs = 64%nat -> wfBlock b -> wfBlock (Fips.words (lowBytes bs) ++ drop 16 b).
Proof.
  intros Hlen [Hl Hb].
  assert (L : length (Fips.words (lowBytes bs)) = 16%nat)
    by (apply words_length; unfold lowBytes; rewrite length_map; lia).
  split.
  - rewrite length_app, L, length_drop. lia.
  - apply Forall_app. split; [apply (words_range 16); lia | apply Forall_drop, Hb].
Qed.

Lemma write_block_step B st :
  length B = 64%nat -> atBoundary st ->
  atBoundary (writeAll B st) /\
  compressed (writeAll B st) = compressed st ++ [Fips.words (lowBytes B)] /\
  toWords (chaining (writeAll B st))
  = Fips.compress (toWords (chaining st)) (Fips.words (lowBytes B)).
Proof.
  intros HBl Hst. rewrite (write_block B st HBl Hst).
  pose proof (padded_block_wf B (block st) HBl (proj1 (proj1 Hst))) as Hwf.
  assert (L : length (Fips.words (lowBytes B)) = 16%nat)
    by (apply words_length; unfold lowBytes; rewrite length_map; lia).
  assert (EC : forall b o s e, chaining (withBlock b o s e) = chaining e) by reflexivity.
  assert (EB : forall b o s e, block (withBlock b o s e) = b) by reflexivity.
  assert (EK : forall b o s e, compressed (withBlock b o s e) = compressed e)
    by reflexivity.
  split; [|split].
  - apply processBlock_boundary; [rewrite EB; exact Hwf | reflexivity].
  - rewrite processBlock_compressed, EB, EK.
    rewrite take_app_length' by (symmetry; exact L). reflexivity.
  - rewrite processBlock_chaining by (rewrite EB; exact Hwf).
    rewrite EC, EB. rewrite schedule_expand by exact Hwf.
    rewrite take_app_length' by (symmetry; exact L).
    unfold Fips.compress. reflexivity.
Qed.

Lemma fold_left_step {A B : Type} (f : A -> B -> A) (x : B) (l : list B) (a : A) :
  fold_left f (x :: l) a = fold_left f l (f a x).
Proof. reflexivity. Qed.

(** Whole blocks from a block boundary: one compression each. *)
Lemma write_blocks Bs st :
  Forall (fun B => length B = 64%nat) Bs -> atBoundary st ->
  atBoundary (writeAll (concat Bs) st) /\
  compressed (writeAll (concat Bs) st)
  = compressed st ++ map (fun B => Fips.words (lowBytes B)) Bs /\
  toWords (chaining (writeAll (concat Bs) st))
  = fold_left Fips.compress (map (fun B => Fips.words (lowBytes B)) Bs)
      (toWords (chaining st)).
Proof.
  intros HB. revert st. induction HB as [|B Bs HBl _ IH]; intros st Hst.
  - change (concat []) with (@nil Z). change (writeAll [] st) with st.
    change (map (fun B => Fips.words (lowBytes B)) []) with (@nil (list Z)).
    change (fold_left Fips.compress [] ?h) with h.
    rewrite app_nil_r. auto.
  - change (concat (B :: Bs)) with (B ++ concat Bs).
    change (map (fun B => Fips.words (lowBytes B)) (B :: Bs))
      with (Fips.words (lowBytes B) :: map (fun B => Fips.words (lowBytes B)) Bs).
    rewrite fold_left_step, writeAll_app.
    destruct (write_block_step B st HBl Hst) as (B1 & C1 & H1).
    destruct (IH (writeAll B st) B1) as (I1 & I2 & I3).
    split; [exact I1|]. split.
    + rewrite I2, C1, <- app_assoc. reflexivity.
    + rewrite I3, H1. reflexivity.
Qed.

Lemma chop_concat k l : length l = (64 * k)%nat -> concat (Fips.chop k l) = l.
Proof.
  revert l. induction k as [|k IH]; intros l H.
  - destruct l; [reflexivity | simpl in H; lia].
  - cbn [Fips.chop concat]. rewrite IH by (rewrite length_drop; lia).
    apply take_drop.
Qed.

Lemma chop_lengths k l :
  length l = (64 * k)%nat -> Forall (fun B => length B = 64%nat) (Fips.chop k l).
Proof.
  revert l. induction k as [|k IH]; intros l H; [constructor|].
  cbn [Fips.chop]. constructor.
  - rewrite length_take_le; lia.
  - apply IH. rewrite length_drop. lia.
Qed.

Lemma chop_lowBytes k l : map lowBytes (Fips.chop k l) = Fips.chop k (lowBytes l).
Proof.
  revert l. induction k as [|k IH]; intros l; [reflexivity|].
  cbn [Fips.chop map]. rewrite IH. unfold lowBytes.
  rewrite fmap_take, fmap_drop. reflexivity.
Qed.

(** A stream of [64 * k] bytes written to a fresh engine. *)
Lemma write_stream sync shared k l :
  cleanBlock shared -> length l = (64 * k)%nat ->
  compressed (writeAll l (createJs sync shared)) = Fips.blocks (lowBytes l) /\
  toWords (chaining (writeAll l (createJs sync shared)))
  = fold_left Fips.compress (Fips.blocks (lowBytes l)) Fips.IV /\
  atBoundary (writeAll l (createJs sync shared)).
Proof.
  intros Hs Hl.
  assert (B0 : atBoundary (createJs sync shared)).
  { split; [|split; reflexivity]. destruct sync; [exact Hs | exact newBlock_clean]. }
  destruct (write_blocks (Fips.chop k l) _ (chop_lengths k l Hl) B0) as (I1 & I2 & I3).
  rewrite (chop_concat k l Hl) in I1, I2, I3.
  assert (E : map (fun B => Fips.words (lowBytes B)) (Fips.chop k l)
              = Fips.blocks (lowBytes l)).
  { unfold Fips.blocks. rewrite <- chop_lowBytes, map_map.
    unfold lowBytes at 3. rewrite length_map, Hl.
    replace (64 * k / 64)%nat with k by (rewrite Nat.mul_comm, Nat.div_mul; lia).
    reflexivity. }
  rewrite E in I2, I3. split; [exact I2|]. split; [exact I3 | exact I1].
Qed.

End Aligned.

(** ** The length bytes and the hexadecimal digits, bit by bit *)

Section Bytes.

Lemma shr_byte len s :
  0 <= s <= 24 -> JS.shr len s mod 256 = (len / 2 ^ s) mod 256.
Proof.
  intros Hs. unfold JS.shr. rewrite (Z.mod_small s 32) by lia.
  change 256 with (2 ^ 8). apply Z.bits_inj'. intros i Hi.
  rewrite !Z.testbit_mod_pow2 by lia.
  destruct (Z.ltb_spec i 8); [|reflexivity]. simpl andb.
  rewrite Z.shiftr_spec, Z.div_pow2_bits by lia.
  apply testbit_ToInt32. lia.
Qed.

Lemma lengthBytes_be64 len :
  0 <= len < 281474976710656 -> lowBytes (lengthBytes len) = Fips.be64 len.
Proof.
  intros H. unfold lengthBytes, Fips.be64, lowBytes. cbn [map].
  rewrite !shr_byte by lia.
  change (8 * 7) with 56. change (8 * 6) with 48. change (8 * 5) with 40.
  change (8 * 4) with 32. change (8 * 3) with 24. change (8 * 2) with 16.
  change (8 * 1) with 8. change (8 * 0) with 0.
  assert (E7 : len / 2 ^ 56 = 0) by (apply Z.div_small; lia).
  assert (E6 : len / 2 ^ 48 = 0) by (apply Z.div_small; lia).
  assert (E5 : (if len >? 1099511627775 then len ÷ 1099511627776 else 0) mod 256
               = (len / 2 ^ 40) mod 256).
  { change (2 ^ 40) with 1099511627776.
    destruct (Z.gtb_spec len 1099511627775).
    - rewrite Z.quot_div_nonneg by lia. reflexivity.
    - rewrite (Z.div_small len) by lia. reflexivity. }
  assert (E4 : (if len >? 4294967295 then len ÷ 4294967296 else 0) mod 256
               = (len / 2 ^ 32) mod 256).
  { change (2 ^ 32) with 4294967296.
    destruct (Z.gtb_spec len 4294967295).
    - rewrite Z.quot_div_nonneg by lia. reflexivity.
    - rewrite (Z.div_small len) by lia. reflexivity. }
  rewrite E7, E6, E5, E4. reflexivity.
Qed.

Lemma nibble_value w i :
  0 <= i <= 28 -> JS.and (JS.shr w i) 0xf = (w mod 4294967296 / 2 ^ i) mod 16.
Proof.
  intros Hi. unfold JS.and, JS.shr. rewrite (Z.mod_small i 32) by lia.
  change (JS.ToInt32 15) with (Z.ones 4).
  rewrite Z.land_ones by lia. change 16 with (2 ^ 4). change 4294967296 with (2 ^ 32).
  apply Z.bits_inj'. intros j Hj. rewrite !Z.testbit_mod_pow2 by lia.
  destruct (Z.ltb_spec j 4); [|reflexivity]. simpl andb.
  rewrite testbit_ToInt32 by lia.
  rewrite Z.shiftr_spec, Z.div_pow2_bits by lia.
  rewrite testbit_ToInt32 by lia.
  rewrite Z.testbit_mod_pow2 by lia.
  destruct (Z.ltb_spec (j + i) 32); [reflexivity | lia].
Qed.

Lemma toString16_digit n :
  0 <= n < 16 -> JS.toString16 n = String (Fips.hexDigit n) EmptyString.
Proof.
  intros [Hlo Hhi]. destruct n as [|p|p]; [reflexivity| |lia].
  destruct p as [[[[q|q|]|[q|q|]|]|[[q|q|]|[q|q|]|]|]|[[[q|q|]|[q|q|]|]|[[q|q|]|[q|q|]|]|]|];
    first [reflexivity | lia].
Qed.

Lemma digitValue_digit n : 0 <= n < 16 -> Fips.digitValue (Fips.hexDigit n) = n.
Proof.
  intros [Hlo Hhi]. destruct n as [|p|p]; [reflexivity| |lia].
  destruct p as [[[[q|q|]|[q|q|]|]|[[q|q|]|[q|q|]|]|]|[[[q|q|]|[q|q|]|]|[[q|q|]|[q|q|]|]|]|];
    first [reflexivity | lia].
Qed.

Lemma toHex_hexWord w : toHex w = Fips.hexWord (w mod 4294967296).
Proof.
  unfold toHex, Fips.hexWord. cbn [fold_left map string_of_list_ascii].
  rewrite !nibble_value by lia.
  change (2 ^ 28) with (16 ^ 7). change (2 ^ 24) with (16 ^ 6).
  change (2 ^ 20) with (16 ^ 5). change (2 ^ 16) with (16 ^ 4).
  change (2 ^ 12) with (16 ^ 3). change (2 ^ 8) with (16 ^ 2).
  change (2 ^ 4) with (16 ^ 1). change (2 ^ 0) with (16 ^ 0).
  rewrite !toString16_digit by (apply Z.mod_pos_bound; lia).
  reflexivity.
Qed.

Lemma hexValue_hexWord u : 0 <= u < 4294967296 -> Fips.hexValue (Fips.hexWord u) = u.
Proof.
  intros Hu. unfold Fips.hexValue, Fips.hexWord.
  rewrite list_ascii_of_string_of_list_ascii. cbn [map fold_left].
  rewrite !digitValue_digit by (apply Z.mod_pos_bound; lia).
  change (16 ^ 7) with 268435456. change (16 ^ 6) with 16777216.
  change (16 ^ 5) with 1048576. change (16 ^ 4) with 65536.
  change (16 ^ 3) with 4096. change (16 ^ 2) with 256.
  change (16 ^ 1) with 16. change (16 ^ 0) with 1.
  rewrite Z.div_1_r.
  assert (E1 : u mod (16 * 16) = u mod 16 + 16 * ((u / 16) mod 16))
    by (apply Z.rem_mul_r; lia).
  assert (E2 : u mod (256 * 16) = u mod 256 + 256 * ((u / 256) mod 16))
    by (apply Z.rem_mul_r; lia).
  assert (E3 : u mod (4096 * 16) = u mod 4096 + 4096 * ((u / 4096) mod 16))
    by (apply Z.rem_mul_r; lia).
  assert (E4 : u mod (65536 * 16) = u mod 65536 + 65536 * ((u / 65536) mod 16))
    by (apply Z.rem_mul_r; lia).
  assert (E5 : u mod (1048576 * 16) = u mod 1048576 + 1048576 * ((u / 1048576) mod 16))
    by (apply Z.rem_mul_r; lia).
  assert (E6 : u mod (16777216 * 16) = u mod 16777216 + 16777216 * ((u / 16777216) mod 16))
    by (apply Z.rem_mul_r; lia).
  assert (E7 : u mod (268435456 * 16)
               = u mod 268435456 + 268435456 * ((u / 268435456) mod 16))
    by (apply Z.rem_mul_r; lia).
  change (16 * 16) with 256 in E1. change (256 * 16) with 4096 in E2.
  change (4096 * 16) with 65536 in E3. change (65536 * 16) with 1048576 in E4.
  change (1048576 * 16) with 16777216 in E5. change (16777216 * 16) with 268435456 in E6.
  change (268435456 * 16) with 4294967296 in E7.
  rewrite (Z.mod_small u 4294967296) in E7 by lia. lia.
Qed.

Lemma hexState_render st : hexState st = Fips.render (toWords (chaining st)).
Proof.
  unfold hexState, Fips.render, toWords, chaining, JS.ToUint32.
  rewrite !toHex_hexWord. reflexivity.
Qed.

End Bytes.

(** X1.  [toHex] renders the unsigned 32-bit value of its argument, negative
    int32 numbers included: its eight digits are those of [word mod 2^32],
    most significant first, and reading them back in base 16 gives that
    value. *)
Theorem toHex_value (w : Z) :
  toHex w = Fips.hexWord (w mod 4294967296) /\
  Fips.hexValue (toHex w) = w mod 4294967296.
Proof.
  split; [apply toHex_hexWord|].
  rewrite toHex_hexWord. apply hexValue_hexWord. apply Z.mod_pos_bound. lia.
Qed.

(** ** The engine against FIPS 180 *)

Section Sha1.

Lemma lowBytes_replicate k : lowBytes (replicate k 0) = replicate k 0.
Proof. induction k as [|k IH]; [reflexivity|]. simpl. f_equal. exact IH. Qed.

Lemma lowBytes_app l1 l2 : lowBytes (l1 ++ l2) = lowBytes l1 ++ lowBytes l2.
Proof. apply map_app. Qed.

Lemma lowBytes_length l : length (lowBytes l) = length l.
Proof. apply length_map. Qed.

Lemma pad_stream bs :
  8 * Z.of_nat (length bs) < 281474976710656 ->
  lowBytes (bs ++ (0x80 :: replicate (Z.to_nat ((55 - Z.of_nat (length bs)) mod 64)) 0)
               ++ lengthBytes (8 * Z.of_nat (length bs)))
  = Fips.pad (lowBytes bs).
Proof.
  intros H. unfold Fips.pad. rewrite lowBytes_length, !lowBytes_app.
  rewrite lengthBytes_be64 by lia.
  change (lowBytes (128 :: ?l)) with (128 :: lowBytes l).
  rewrite lowBytes_replicate. reflexivity.
Qed.

Lemma stream_length bs len :
  exists k,
    length (bs ++ (0x80 :: replicate (Z.to_nat ((55 - Z.of_nat (length bs)) mod 64)) 0)
               ++ lengthBytes len)
    = (64 * k)%nat /\
    Z.of_nat k = (Z.of_nat (length bs) + 72) / 64.
Proof.
  exists (Z.to_nat ((Z.of_nat (length bs) + 72) / 64)).
  rewrite !length_app. change (length (lengthBytes len)) with 8%nat.
  cbn [length]. rewrite length_replicate.
  assert (E : Z.of_nat (length bs) + 1 + (55 - Z.of_nat (length bs)) mod 64 + 8
              = 64 * ((Z.of_nat (length bs) + 72) / 64))
    by (Z.div_mod_to_equations; lia).
  assert (R : 0 <= (55 - Z.of_nat (length bs)) mod 64) by (apply Z.mod_pos_bound; lia).
  assert (Q : 0 <= (Z.of_nat (length bs) + 72) / 64) by (apply Z.div_pos; lia).
  split; lia.
Qed.

(** The engine after [digest], for an input below 2^45 bytes. *)
Lemma digest_fips sync shared cs :
  cleanBlock shared ->
  8 * Z.of_nat (length (bytesOf cs)) < 281474976710656 ->
  compressed (snd (digest (updates cs (createJs sync shared))))
  = Fips.blocks (Fips.pad (lowBytes (bytesOf cs))) /\
  toWords (chaining (snd (digest (updates cs (createJs sync shared)))))
  = Fips.sha1 (lowBytes (bytesOf cs)).
Proof.
  intros Hs Hlen. rewrite (digest_stream sync shared cs Hs).
  change (compressed (addLength ?n ?s)) with (compressed s).
  change (chaining (addLength ?n ?s)) with (chaining s).
  destruct (stream_length (bytesOf cs) (8 * Z.of_nat (length (bytesOf cs)))) as (k & Hk & _).
  destruct (write_stream sync shared k _ Hs Hk) as (C & H & _).
  rewrite pad_stream in C, H by exact Hlen.
  split; [exact C | exact H].
Qed.

Lemma bytesOf_single l : bytesOf [ChunkString l] = l.
Proof. unfold bytesOf. cbn [map concat chunkData]. apply app_nil_r. Qed.

End Sha1.

(** X2.  For an input shorter than 2^45 bytes, the blocks [digest] has
    processed when it returns are exactly the FIPS 180 padding of the input
    bytes (each element reduced to its low byte): the message, 0x80, zero
    bytes up to 56 modulo 64, the 64-bit length, cut into 16-word
    big-endian blocks. *)
Theorem digest_blocks (sync : bool) (shared : list Z) (cs : list chunk) :
  cleanBlock shared ->
  8 * Z.of_nat (length (bytesOf cs)) < 281474976710656 ->
  compressed (snd (digest (updates cs (createJs sync shared))))
  = Fips.blocks (Fips.pad (lowBytes (bytesOf cs))).
Proof. intros Hs Hlen. exact (proj1 (digest_fips sync shared cs Hs Hlen)). Qed.

Lemma digest_blocks_witness :
  cleanBlock newBlock /\
  8 * Z.of_nat (length (bytesOf abcChunks)) < 281474976710656 /\
  compressed (snd (digest (updates abcChunks (createJs false newBlock))))
  = Fips.blocks (Fips.pad (lowBytes (bytesOf abcChunks))).
Proof.
  assert (H : cleanBlock newBlock) by (apply (bool_decide_unpack _); vm_compute; exact I).
  assert (L : 8 * Z.of_nat (length (bytesOf abcChunks)) < 281474976710656)
    by (vm_compute; reflexivity).
  split; [exact H | split; [exact L | exact (digest_blocks false newBlock abcChunks H L)]].
Defined.

(** X3.  For an input shorter than 2^45 bytes, the string [digest] returns
    is the SHA-1 of the input bytes as FIPS 180 defines it (padding, message
    schedule, eighty rounds per block from the initial hash value), written
    as 40 lowercase hexadecimal digits. *)
Theorem digest_is_sha1 (sync : bool) (shared : list Z) (cs : list chunk) :
  cleanBlock shared ->
  8 * Z.of_nat (length (bytesOf cs)) < 281474976710656 ->
  fst (digest (updates cs (createJs sync shared)))
  = Fips.render (Fips.sha1 (lowBytes (bytesOf cs))).
Proof.
  intros Hs Hlen. rewrite digest_fst, hexState_render.
  rewrite (proj2 (digest_fips sync shared cs Hs Hlen)). reflexivity.
Qed.

Lemma digest_is_sha1_witness :
  cleanBlock newBlock /\
  8 * Z.of_nat (length (bytesOf abcChunks)) < 281474976710656 /\
  fst (digest (updates abcChunks (createJs false newBlock)))
  = Fips.render (Fips.sha1 (lowBytes (bytesOf abcChunks))).
Proof.
  assert (H : cleanBlock newBlock) by (apply (bool_decide_unpack _); vm_compute; exact I).
  assert (L : 8 * Z.of_nat (length (bytesOf abcChunks)) < 281474976710656)
    by (vm_compute; reflexivity).
  split; [exact H | split; [exact L | exact (digest_is_sha1 false newBlock abcChunks H L)]].
Defined.

(** X4.  Whatever the input length, a session processes
    [(n + 72) / 64] blocks in all for [n] input bytes: the blocks of the
    input, plus one or two for the padding. *)
Theorem digest_block_count (sync : bool) (shared : list Z) (cs : list chunk) :
  cleanBlock shared ->
  Z.of_nat (length (compressed (snd (digest (updates cs (createJs sync shared))))))
  = (Z.of_nat (length (bytesOf cs)) + 72) / 64.
Proof.
  intros Hs. rewrite (digest_stream sync shared cs Hs).
  change (compressed (addLength ?n ?s)) with (compressed s).
  destruct (stream_length (bytesOf cs) (8 * Z.of_nat (length (bytesOf cs)))) as (k & Hk & Ek).
  assert (V : validCursor (offset (createJs sync shared)) (shift (createJs sync shared)))
    by (split; [simpl; lia | simpl; auto]).
  rewrite (proj2 (writeAll_position _ _ V)), Hk.
  change (compressed (createJs sync shared)) with (@nil (list Z)).
  change (cursorBytes (createJs sync shared)) with 0.
  simpl length. rewrite <- Ek. Z.div_mod_to_equations. lia.
Qed.

Lemma digest_block_count_witness :
  cleanBlock newBlock /\
  Z.of_nat (length (compressed (snd (digest (updates abcChunks (createJs false newBlock))))))
  = (Z.of_nat (length (bytesOf abcChunks)) + 72) / 64.
Proof.
  assert (H : cleanBlock newBlock) by (apply (bool_decide_unpack _); vm_compute; exact I).
  split; [exact H | exact (digest_block_count false newBlock abcChunks H)].
Defined.

(** X5.  The one-shot [sha1] and the incremental interface agree: after any
    earlier sessions, [sha1(buffer)] returns what a private engine returns
    when fed the same code units in any chunks. *)
Theorem one_shot_is_incremental (history : list (bool * list chunk))
        (buffer : list Z) (cs : list chunk) :
  buffer = bytesOf cs ->
  fst (sha1 buffer (sessions history newBlock))
  = fst (digest (updates cs (createJs false newBlock))).
Proof.
  intros ->. rewrite sha1_session.
  rewrite (session_digest true false _ (sessions history newBlock) newBlock
             (sessions_clean history newBlock newBlock_clean) newBlock_clean).
  rewrite session_fst, !updates_writeAll, bytesOf_single. reflexivity.
Qed.

Lemma one_shot_is_incremental_witness :
  [97; 98; 99] = bytesOf abcChunks /\
  fst (sha1 [97; 98; 99] (sessions [] newBlock))
  = fst (digest (updates abcChunks (createJs false newBlock))).
Proof.
  split; [reflexivity | apply (one_shot_is_incremental [] [97; 98; 99] abcChunks); reflexivity].
Defined.

(** ** What the block holds between two [update] calls *)

Section Buffer.

Lemma nat_div64 n k r : n = (64 * k + r)%nat -> (r < 64)%nat -> (n / 64)%nat = k.
Proof.
  intros -> Hr. symmetry. apply (Nat.div_unique _ 64 k r); [exact Hr | reflexivity].
Qed.

Lemma nat_mod64 n k r : n = (64 * k + r)%nat -> (r < 64)%nat -> (n mod 64)%nat = r.
Proof.
  intros -> Hr. symmetry. apply (Nat.mod_unique _ 64 k r); [exact Hr | reflexivity].
Qed.

Lemma nat_split64 n : exists k r, n = (64 * k + r)%nat /\ (r < 64)%nat.
Proof.
  exists (n / 64)%nat, (n mod 64)%nat. split.
  - apply Nat.div_mod_eq.
  - apply Nat.mod_upper_bound. lia.
Qed.

(** The groups of 64 bytes of a string followed by its zero-padded
    remainder. *)
Lemma chop_snoc k l z :
  (64 * k <= length l)%nat -> (length l + length z = 64 * S k)%nat ->
  Fips.chop (S k) (l ++ z) = Fips.chop k l ++ [drop (64 * k) l ++ z].
Proof.
  revert l. induction k as [|k IH]; intros l Hl Hz.
  - cbn [Fips.chop app]. rewrite take_ge by (rewrite length_app; lia).
    rewrite Nat.mul_0_r, drop_0. reflexivity.
  - change (Fips.chop (S (S k)) (l ++ z))
      with (take 64 (l ++ z) :: Fips.chop (S k) (drop 64 (l ++ z))).
    rewrite take_app_le, drop_app_le by lia.
    rewrite IH by (rewrite length_drop; lia).
    rewrite drop_drop. replace (64 + 64 * k)%nat with (64 * S k)%nat by lia.
    reflexivity.
Qed.

Lemma writeAll_buffer sync shared bs :
  cleanBlock shared ->
  compressed (writeAll bs (createJs sync shared)) = Fips.blocks (lowBytes bs) /\
  take 16 (block (writeAll bs (createJs sync shared)))
  = Fips.words (drop (64 * (length bs / 64)) (lowBytes bs)
                  ++ replicate (64 - length bs mod 64) 0).
Proof.
  intros Hs. pose proof (createJs_tidy sync shared Hs) as T0.
  pose proof (writeAll_tidy bs _ T0) as T.
  destruct (nat_split64 (length bs)) as (k & r & Hn & Hr).
  rewrite (nat_div64 _ k r Hn Hr), (nat_mod64 _ k r Hn Hr).
  assert (P : cursorBytes (writeAll bs (createJs sync shared)) = Z.of_nat r).
  { rewrite (proj1 (writeAll_position _ _ (proj1 (proj2 T0)))).
    change (cursorBytes (createJs sync shared)) with 0. rewrite Hn.
    Z.div_mod_to_equations. lia. }
  pose proof (zeros_wrap _ T) as W. rewrite P in W.
  replace (Z.to_nat (64 - Z.of_nat r)) with (64 - r)%nat in W by lia.
  rewrite <- writeAll_app in W.
  assert (L : length (bs ++ replicate (64 - r) 0) = (64 * S k)%nat)
    by (rewrite length_app, length_replicate; lia).
  destruct (write_stream sync shared (S k) _ Hs L) as (C & _ & _).
  rewrite W, processBlock_compressed in C.
  change (compressed (withBlock ?b ?o ?s ?e)) with (compressed e) in C.
  change (block (withBlock ?b ?o ?s ?e)) with b in C.
  unfold Fips.blocks in C. rewrite lowBytes_length, L in C.
  rewrite (nat_div64 (64 * S k) (S k) 0) in C by lia.
  rewrite lowBytes_app, lowBytes_replicate in C.
  rewrite chop_snoc in C
    by (rewrite ?length_replicate, lowBytes_length; lia).
  rewrite map_app in C. cbn [map] in C.
  apply app_inj_tail in C. destruct C as [C1 C2].
  split; [|exact C2].
  rewrite C1. unfold Fips.blocks. rewrite lowBytes_length.
  rewrite (nat_div64 _ k r Hn Hr). reflexivity.
Qed.

End Buffer.

(** X6 (buffering).  After any [update] calls on a fresh engine, the blocks
    processed so far are the complete 64-byte groups of the input (low bytes,
    big-endian words), and words 0..15 of the block hold the remaining
    [n mod 64] bytes followed by zero bytes. *)
Theorem buffer_contents (sync : bool) (shared : list Z) (cs : list chunk) :
  cleanBlock shared ->
  compressed (updates cs (createJs sync shared)) = Fips.blocks (lowBytes (bytesOf cs)) /\
  take 16 (block (updates cs (createJs sync shared)))
  = Fips.words (drop (64 * (length (bytesOf cs) / 64)) (lowBytes (bytesOf cs))
                  ++ replicate (64 - length (bytesOf cs) mod 64) 0).
Proof.
  intros Hs. rewrite updates_writeAll.
  change (compressed (addLength ?n ?s)) with (compressed s).
  change (block (addLength ?n ?s)) with (block s).
  apply writeAll_buffer, Hs.
Qed.

Lemma buffer_contents_witness :
  cleanBlock newBlock /\
  compressed (updates longChunks (createJs false newBlock))
  = Fips.blocks (lowBytes (bytesOf longChunks)) /\
  take 16 (block (updates longChunks (createJs false newBlock)))
  = Fips.words (drop (64 * (length (bytesOf longChunks) / 64)) (lowBytes (bytesOf longChunks))
                  ++ replicate (64 - length (bytesOf longChunks) mod 64) 0).
Proof.
  assert (H : cleanBlock newBlock) by (apply (bool_decide_unpack _); vm_compute; exact I).
  split; [exact H | exact (buffer_contents false newBlock longChunks H)].
Defined.

(** ** An engine used again after [digest] *)

Section Reuse.

Lemma atBoundary_tidy st : atBoundary st -> tidy st.
Proof.
  intros (Hc & Ho & Hs). split; [apply Hc|]. rewrite Ho, Hs.
  split; [split; [lia | auto]|]. apply cleanBlock_zeroFrom; [exact Hc | lia].
Qed.

(** [digest] after some [update] calls, from any engine between writes. *)
Lemma digest_stream_from st cs :
  tidy st ->
  snd (digest (updates cs st))
  = addLength (8 * Z.of_nat (length (bytesOf cs)))
      (writeAll (bytesOf cs
                 ++ (0x80 :: replicate
                       (zerosAfter ((cursorBytes st + Z.of_nat (length (bytesOf cs)) + 1) mod 64)) 0)
                 ++ lengthBytes (totalLength st + 8 * Z.of_nat (length (bytesOf cs))))
                st).
Proof.
  intros T0. pose proof (updates_tidy cs _ T0) as Ht.
  rewrite digest_writes by exact Ht.
  rewrite updates_writeAll. rewrite write_addLength.
  assert (P : cursorBytes (addLength (Z.of_nat (length (bytesOf cs)) * 8)
                             (write 128 (writeAll (bytesOf cs) st)))
              = (cursorBytes st + Z.of_nat (length (bytesOf cs)) + 1) mod 64).
  { change (cursorBytes (addLength ?n ?s)) with (cursorBytes s).
    change (write 128 (writeAll (bytesOf cs) st))
      with (writeAll [128] (writeAll (bytesOf cs) st)).
    rewrite <- writeAll_app.
    rewrite (proj1 (writeAll_position _ _ (proj1 (proj2 T0)))).
    rewrite length_app. simpl length. f_equal. lia. }
  rewrite P.
  change (totalLength (addLength ?n ?s)) with (totalLength s + n).
  rewrite writeAll_totalLength, writeAll_addLength.
  replace (totalLength st + Z.of_nat (length (bytesOf cs)) * 8)
    with (totalLength st + 8 * Z.of_nat (length (bytesOf cs))) by lia.
  f_equal; [lia|]. rewrite !writeAll_app. reflexivity.
Qed.

End Reuse.

(** X7 (use after [digest]).  [update] and [digest] on an engine that has
    already returned a digest raise no fault and go on from where the first
    [digest] stopped: the second string is the rendering of the compression,
    from the initial hash value, of the padded first message followed by the
    second input, a 0x80 byte, zero bytes and a length field that counts the
    bytes of both inputs.  (Inputs shorter than 2^45 bytes together.) *)
Theorem reuse_after_digest (sync : bool) (shared : list Z) (cs1 cs2 : list chunk) :
  cleanBlock shared ->
  8 * Z.of_nat (length (bytesOf cs1) + length (bytesOf cs2)) < 281474976710656 ->
  fst (digest (updates cs2 (snd (digest (updates cs1 (createJs sync shared))))))
  = Fips.render
      (fold_left Fips.compress
         (Fips.blocks
            (Fips.pad (lowBytes (bytesOf cs1))
             ++ lowBytes (bytesOf cs2) ++ [0x80]
             ++ replicate (Z.to_nat ((55 - Z.of_nat (length (bytesOf cs2))) mod 64)) 0
             ++ Fips.be64 (8 * Z.of_nat (length (bytesOf cs1) + length (bytesOf cs2)))))
         Fips.IV).
Proof.
  intros Hs Hlen.
  pose proof (updates_tidy cs1 _ (createJs_tidy sync shared Hs)) as T1.
  destruct (digest_after _ T1) as (Hc & Ho & Hsh & HL).
  rewrite updates_totalLength in HL.
  assert (T2 : tidy (snd (digest (updates cs1 (createJs sync shared)))))
    by (apply atBoundary_tidy; split; [exact Hc | split; assumption]).
  rewrite digest_fst, hexState_render. f_equal.
  rewrite (digest_stream_from _ cs2 T2).
  change (chaining (addLength ?n ?s)) with (chaining s).
  assert (P : cursorBytes (snd (digest (updates cs1 (createJs sync shared)))) = 0)
    by (unfold cursorBytes; rewrite Ho, Hsh; reflexivity).
  rewrite P, HL. rewrite Z.add_0_l, zerosAfter_length.
  rewrite (digest_stream sync shared cs1 Hs).
  rewrite writeAll_addLength.
  change (chaining (addLength ?n ?s)) with (chaining s).
  rewrite <- writeAll_app.
  set (S1 := bytesOf cs1 ++ (128 :: replicate _ 0) ++ lengthBytes _).
  set (S2 := bytesOf cs2 ++ (128 :: replicate _ 0) ++ lengthBytes _).
  destruct (stream_length (bytesOf cs1) (8 * Z.of_nat (length (bytesOf cs1)))) as (k1 & Hk1 & _).
  destruct (stream_length (bytesOf cs2)
              (8 * Z.of_nat (length (bytesOf cs1)) + 8 * Z.of_nat (length (bytesOf cs2))))
    as (k2 & Hk2 & _).
  assert (L : length (S1 ++ S2) = (64 * (k1 + k2))%nat)
    by (rewrite length_app; unfold S1, S2; rewrite Hk1, Hk2; lia).
  destruct (write_stream sync shared (k1 + k2) _ Hs L) as (_ & H & _).
  rewrite H. f_equal. f_equal.
  rewrite lowBytes_app. unfold S1, S2.
  rewrite pad_stream by lia.
  rewrite !lowBytes_app, lengthBytes_be64 by lia.
  change (lowBytes (128 :: ?l)) with (128 :: lowBytes l).
  rewrite lowBytes_replicate.
  replace (8 * Z.of_nat (length (bytesOf cs1)) + 8 * Z.of_nat (length (bytesOf cs2)))
    with (8 * Z.of_nat (length (bytesOf cs1) + length (bytesOf cs2))) by lia.
  reflexivity.
Qed.

Lemma reuse_after_digest_witness :
  cleanBlock newBlock /\
  8 * Z.of_nat (length (bytesOf abcChunks) + length (bytesOf moreChunks)) < 281474976710656 /\
  fst (digest (updates moreChunks (snd (digest (updates abcChunks (createJs false newBlock))))))
  = Fips.render
      (fold_left Fips.compress
         (Fips.blocks
            (Fips.pad (lowBytes (bytesOf abcChunks))
             ++ lowBytes (bytesOf moreChunks) ++ [0x80]
             ++ replicate (Z.to_nat ((55 - Z.of_nat (length (bytesOf moreChunks))) mod 64)) 0
             ++ Fips.be64 (8 * Z.of_nat (length (bytesOf abcChunks)
                                         + length (bytesOf moreChunks)))))
         Fips.IV).
Proof.
  assert (H : cleanBlock newBlock) by (apply (bool_decide_unpack _); vm_compute; exact I).
  assert (L : 8 * Z.of_nat (length (bytesOf abcChunks) + length (bytesOf moreChunks))
              < 281474976710656) by (vm_compute; reflexivity).
  split; [exact H | split; [exact L |]].
  exact (reuse_after_digest false newBlock abcChunks moreChunks H L).
Defined.

(** ** What [processBlock] leaves in the array *)

Section Reset.

Lemma clear_drop b k :
  (k <= 16)%nat -> drop 16 (fold_left (fun b i => set i 0 b) (seq 0 k) b) = drop 16 b.
Proof.
  induction k as [|k IH]; intros Hk; [reflexivity|].
  rewrite seq_S, fold_left_app. cbn [fold_left]. unfold set at 1.
  rewrite drop_insert_lt by lia. apply IH. lia.
Qed.

Lemma clear16_eq b : wfBlock b -> clear16 b = replicate 16 0 ++ drop 16 b.
Proof.
  intros Hb. destruct (clear16_clean b Hb) as [_ Ht].
  rewrite <- (take_drop 16 (clear16 b)), Ht. f_equal.
  apply (clear_drop b 16). lia.
Qed.

Lemma processBlock_block_eq st :
  wfBlock (block st) ->
  block (processBlock st)
  = replicate 16 0 ++ drop 16 (Fips.expand (take 16 (block st))).
Proof.
  intros Hb. rewrite processBlock_block.
  rewrite clear16_eq by (apply (schedule_spec _ Hb)).
  rewrite schedule_expand by exact Hb. reflexivity.
Qed.

Lemma final_block_array sync shared cs :
  cleanBlock shared ->
  exists final,
    last (compressed (snd (digest (updates cs (createJs sync shared))))) = Some final /\
    block (snd (digest (updates cs (createJs sync shared))))
    = replicate 16 0 ++ drop 16 (Fips.expand final).
Proof.
  intros Hs. pose proof (updates_tidy cs _ (createJs_tidy sync shared Hs)) as Ht.
  rewrite digest_final by exact Ht.
  destruct (digestPad_spec _ Ht) as (_ & (Hwf & _) & _).
  set (X := withBlock _ 16 24 _).
  assert (HX : wfBlock (block X)).
  { unfold X. change (block (withBlock ?b ?o ?s ?e)) with b.
    repeat apply wfBlock_insert; try exact Hwf; apply bigEndian_range. }
  exists (take 16 (block X)). split.
  - rewrite processBlock_compressed. apply last_snoc.
  - apply processBlock_block_eq, HX.
Qed.

End Reset.

(** X8.  [processBlock] clears words 0..15 only: it leaves in words 16..79
    the message schedule it has just computed from the block (the words the
    extension loop wrote), sets [offset] to 0, and keeps [shift] and
    [totalLength] as they were (the [shift] is reset by its callers). *)
Theorem processBlock_reset (st : engine) :
  wfBlock (block st) ->
  block (processBlock st) = replicate 16 0 ++ drop 16 (schedule (block st)) /\
  schedule (block st) = Fips.expand (take 16 (block st)) /\
  offset (processBlock st) = 0%nat /\
  shift (processBlock st) = shift st /\
  totalLength (processBlock st) = totalLength st.
Proof.
  intros Hb. split.
  - rewrite processBlock_block. apply clear16_eq. apply (schedule_spec _ Hb).
  - split; [apply schedule_expand, Hb|].
    rewrite processBlock_offset, processBlock_shift, processBlock_totalLength. auto.
Qed.

Lemma processBlock_reset_witness :
  wfBlock (block (createJs false newBlock)) /\
  block (processBlock (createJs false newBlock))
  = replicate 16 0 ++ drop 16 (schedule (block (createJs false newBlock))) /\
  schedule (block (createJs false newBlock))
  = Fips.expand (take 16 (block (createJs false newBlock))) /\
  offset (processBlock (createJs false newBlock)) = 0%nat /\
  shift (processBlock (createJs false newBlock)) = shift (createJs false newBlock) /\
  totalLength (processBlock (createJs false newBlock)) = totalLength (createJs false newBlock).
Proof.
  assert (H : wfBlock (block (createJs false newBlock)))
    by (apply (bool_decide_unpack _); vm_compute; exact I).
  split; [exact H | exact (processBlock_reset (createJs false newBlock) H)].
Defined.

(** X9.  After [sha1(buffer)] (buffer shorter than 2^45 code units) the
    shared array is not all zero: words 0..15 are zero and words 16..79 still
    hold the message schedule of the last padded block of [buffer]. *)
Theorem shared_after_sha1 (history : list (bool * list chunk)) (buffer : list Z) :
  8 * Z.of_nat (length buffer) < 281474976710656 ->
  exists final,
    last (Fips.blocks (Fips.pad (lowBytes buffer))) = Some final /\
    snd (sha1 buffer (sessions history newBlock))
    = replicate 16 0 ++ drop 16 (Fips.expand final).
Proof.
  intros Hlen.
  pose proof (sessions_clean history newBlock newBlock_clean) as Hs.
  rewrite sha1_session, session_snd.
  destruct (final_block_array true _ [ChunkString buffer] Hs) as (final & Hlast & Hblock).
  exists final. split; [|exact Hblock].
  assert (Hlen' : 8 * Z.of_nat (length (bytesOf [ChunkString buffer])) < 281474976710656)
    by (rewrite bytesOf_single; exact Hlen).
  pose proof (proj1 (digest_fips true _ [ChunkString buffer] Hs Hlen')) as C.
  rewrite bytesOf_single in C. rewrite <- C. exact Hlast.
Qed.

Lemma shared_after_sha1_witness :
  8 * Z.of_nat (length [97; 98; 99]) < 281474976710656 /\
  exists final,
    last (Fips.blocks (Fips.pad (lowBytes [97; 98; 99]))) = Some final /\
    snd (sha1 [97; 98; 99] (sessions [] newBlock))
    = replicate 16 0 ++ drop 16 (Fips.expand final).
Proof.
  assert (L : 8 * Z.of_nat (length [97; 98; 99]) < 281474976710656)
    by (vm_compute; reflexivity).
  split; [exact L | exact (shared_after_sha1 [] [97; 98; 99] L)].
Defined.

(** ** Every reachable chaining value is a 32-bit number *)

Section Reachable.

Lemma store_chaining x st : chaining (store x st) = chaining st.
Proof. unfold store, chaining. destruct (shift st =? 0); reflexivity. Qed.

Lemma chainingInRange_chaining st st' :
  chaining st = chaining st' -> chainingInRange st' -> chainingInRange st.
Proof.
  unfold chaining, chainingInRange. intros E H.
  injection E as -> -> -> -> ->. exact H.
Qed.

Lemma processBlock_inRange st : chainingInRange (processBlock st).
Proof.
  pose proof (processBlock_int32 st) as H. unfold chaining in H. exact H.
Qed.

Lemma write_inRange x st : chainingInRange st -> chainingInRange (write x st).
Proof.
  intros H. unfold write. destruct (offset (store x st) =? 16)%nat.
  - apply processBlock_inRange.
  - apply (chainingInRange_chaining _ st); [apply store_chaining | exact H].
Qed.

Lemma writeAll_inRange l st : chainingInRange st -> chainingInRange (writeAll l st).
Proof.
  revert st. induction l as [|x l IH]; intros st H; [exact H|].
  simpl. apply IH, write_inRange, H.
Qed.

Lemma createJs_inRange sync shared : chainingInRange (createJs sync shared).
Proof. unfold chainingInRange, word33. simpl. lia. Qed.

Lemma inRange_small st : chainingInRange st -> smallVars (chaining st).
Proof.
  intros H. apply chaining_small. unfold chaining. exact H.
Qed.

End Reachable.

(** X10 (exact arithmetic).  In every engine reached by [update] calls, and
    in the engine [digest] leaves, h0..h4 lie in [-2^31, 2^32); and from such
    values the working variables of the main loop stay below 2^34 in
    magnitude after every round, whatever the block.  So every sum the
    source forms is an integer far below 2^53, where doubles are exact. *)
Theorem numbers_stay_small (sync : bool) (shared : list Z) (cs : list chunk) :
  chainingInRange (updates cs (createJs sync shared)) /\
  chainingInRange (snd (digest (updates cs (createJs sync shared)))) /\
  forall (blk : list Z) (n : nat),
    smallVars (fold_left (round blk) (seq 0 n)
                 (chaining (updates cs (createJs sync shared)))).
Proof.
  assert (H : chainingInRange (updates cs (createJs sync shared))).
  { rewrite updates_writeAll.
    apply (chainingInRange_chaining _ (writeAll (bytesOf cs) (createJs sync shared)));
      [reflexivity|]. apply writeAll_inRange, createJs_inRange. }
  split; [exact H|]. split.
  - unfold digest. cbv zeta. cbn [snd]. rewrite digestLength_writes.
    apply writeAll_inRange. unfold digestPad. cbv zeta.
    apply (chainingInRange_chaining _
             (if needsExtraBlock (write 128 (updates cs (createJs sync shared)))
              then processBlock (write 128 (updates cs (createJs sync shared)))
              else write 128 (updates cs (createJs sync shared)))); [reflexivity|].
    destruct (needsExtraBlock _); [apply processBlock_inRange | apply write_inRange, H].
  - intros blk n. apply rounds_small, inRange_small, H.
Qed.

(** ** Inputs of 2^45 bytes and more *)

Section LongInput.

Lemma low48_byte len s :
  0 <= s <= 40 ->
  ((len mod 281474976710656) / 2 ^ s) mod 256 = (len / 2 ^ s) mod 256.
Proof.
  intros Hs. change 281474976710656 with (2 ^ 48). change 256 with (2 ^ 8).
  apply Z.bits_inj'. intros i Hi. rewrite !Z.testbit_mod_pow2 by lia.
  destruct (Z.ltb_spec i 8); [|reflexivity]. simpl andb.
  rewrite !Z.div_pow2_bits by lia. rewrite Z.testbit_mod_pow2 by lia.
  destruct (Z.ltb_spec (i + s) 48); [reflexivity | lia].
Qed.

Lemma lengthBytes_low48 len :
  0 <= len -> lowBytes (lengthBytes len) = Fips.be64 (len mod 281474976710656).
Proof.
  intros H. unfold lengthBytes, Fips.be64, lowBytes. cbn [map].
  rewrite !shr_byte by lia.
  change (8 * 7) with 56. change (8 * 6) with 48. change (8 * 5) with 40.
  change (8 * 4) with 32. change (8 * 3) with 24. change (8 * 2) with 16.
  change (8 * 1) with 8. change (8 * 0) with 0.
  rewrite (low48_byte len 40), (low48_byte len 32), (low48_byte len 24),
    (low48_byte len 16), (low48_byte len 8), (low48_byte len 0) by lia.
  pose proof (Z.mod_pos_bound len 281474976710656 ltac:(lia)) as R.
  assert (E7 : len mod 281474976710656 / 2 ^ 56 = 0) by (apply Z.div_small; lia).
  assert (E6 : len mod 281474976710656 / 2 ^ 48 = 0) by (apply Z.div_small; lia).
  assert (E5 : (if len >? 1099511627775 then len ÷ 1099511627776 else 0) mod 256
               = (len / 2 ^ 40) mod 256).
  { change (2 ^ 40) with 1099511627776.
    destruct (Z.gtb_spec len 1099511627775).
    - rewrite Z.quot_div_nonneg by lia. reflexivity.
    - rewrite (Z.div_small len) by lia. reflexivity. }
  assert (E4 : (if len >? 4294967295 then len ÷ 4294967296 else 0) mod 256
               = (len / 2 ^ 32) mod 256).
  { change (2 ^ 32) with 4294967296.
    destruct (Z.gtb_spec len 4294967295).
    - rewrite Z.quot_div_nonneg by lia. reflexivity.
    - rewrite (Z.div_small len) by lia. reflexivity. }
  rewrite E7, E6, E5, E4. reflexivity.
Qed.

End LongInput.

(** X11.  Whatever the input length (below 2^50 bytes, where [totalLength]
    is exact), [digest] compresses the input bytes, a 0x80 byte, zero bytes
    up to 56 modulo 64, and the bit length reduced modulo 2^48 as a 64-bit
    big-endian field: from 2^45 bytes on the result is no longer the SHA-1
    of the input but that of a padding with a truncated length. *)
Theorem digest_any_length (sync : bool) (shared : list Z) (cs : list chunk) :
  cleanBlock shared ->
  8 * Z.of_nat (length (bytesOf cs)) < 9007199254740992 ->
  fst (digest (updates cs (createJs sync shared)))
  = Fips.render
      (fold_left Fips.compress
         (Fips.blocks
            (lowBytes (bytesOf cs) ++ [0x80]
             ++ replicate (Z.to_nat ((55 - Z.of_nat (length (bytesOf cs))) mod 64)) 0
             ++ Fips.be64 ((8 * Z.of_nat (length (bytesOf cs))) mod 281474976710656)))
         Fips.IV).
Proof.
  intros Hs Hlen. rewrite digest_fst, hexState_render. f_equal.
  rewrite (digest_stream sync shared cs Hs).
  change (chaining (addLength ?n ?s)) with (chaining s).
  destruct (stream_length (bytesOf cs) (8 * Z.of_nat (length (bytesOf cs)))) as (k & Hk & _).
  destruct (write_stream sync shared k _ Hs Hk) as (_ & H & _).
  rewrite H. f_equal. f_equal.
  rewrite !lowBytes_app, lengthBytes_low48 by lia.
  change (lowBytes (128 :: ?l)) with (128 :: lowBytes l).
  rewrite lowBytes_replicate. reflexivity.
Qed.

Lemma digest_any_length_witness :
  cleanBlock newBlock /\
  8 * Z.of_nat (length (bytesOf longChunks)) < 9007199254740992 /\
  fst (digest (updates longChunks (createJs false newBlock)))
  = Fips.render
      (fold_left Fips.compress
         (Fips.blocks
            (lowBytes (bytesOf longChunks) ++ [0x80]
             ++ replicate (Z.to_nat ((55 - Z.of_nat (length (bytesOf longChunks))) mod 64)) 0
             ++ Fips.be64 ((8 * Z.of_nat (length (bytesOf longChunks))) mod 281474976710656)))
         Fips.IV).
Proof.
  assert (H : cleanBlock newBlock) by (apply (bool_decide_unpack _); vm_compute; exact I).
  assert (L : 8 * Z.of_nat (length (bytesOf longChunks)) < 9007199254740992)
    by (vm_compute; reflexivity).
  split; [exact H | split; [exact L | exact (digest_any_length false newBlock longChunks H L)]].
Defined.

